(** * BackoffLM: the n-gram backoff language model of [models/backoff.py]

    A shallow embedding of the class [BackoffLM] and the proofs of its
    specification.

    Conventions of the embedding.
    - A token is [option string]: [Some w] is a word of an utterance, [None]
      is the pad symbol of [nltk.ngrams] (Python's [None]), which the
      vocabulary also counts once per utterance.
    - The class inherits from [dict]; the inherited dictionary (context to
      distribution) is the field [table], a [gmap]; [vocab] is the
      [collections.Counter].
    - Methods run in a state and exception monad [M]: a method takes the
      object and returns an outcome (a value or a raised exception) together
      with the object as the method leaves it.
    - Python integers are [Z].  A Python float is idealised: the weights held
      by the dictionary are exact rationals [Q] (a division by zero raises
      [ZeroDivisionError], as in Python), and the values that go through
      [log2] and [pow] are [pyfloat]: an exact real or one of the special
      values of IEEE arithmetic.  Rounding and overflow are not modelled.
    - Logging and the progress bar have no effect on the object and are left
      out. *)

From Stdlib Require Import QArith Qreals Reals Psatz.
From Stdlib Require Import Ascii.
From stdpp Require Import gmap strings list fin_maps.

(** ** Tokens, contexts and the object *)

Abbreviation token := (option string).
Abbreviation context := (list token).
Abbreviation Counter := (gmap token Z).
Abbreviation dist := (gmap token Q).

Record BackoffLM := mkLM {
  table : gmap context dist;
  vocab : Counter;
  oov : string;
  min_freq : Z;
  ngram_size : nat;
  is_normalized : bool
}.

Definition OOV_TOKEN : string := "__oov__".

(** [BackoffLM.__init__] *)
Definition BackoffLM_init (oov : string) (min_freq : Z) (ngram_size : nat)
  : BackoffLM :=
  {| table := ∅; vocab := ∅; oov := oov; min_freq := min_freq;
     ngram_size := ngram_size; is_normalized := false |}.

Definition set_table (t : gmap context dist) (m : BackoffLM) : BackoffLM :=
  {| table := t; vocab := vocab m; oov := oov m; min_freq := min_freq m;
     ngram_size := ngram_size m; is_normalized := is_normalized m |}.

Definition set_vocab (v : Counter) (m : BackoffLM) : BackoffLM :=
  {| table := table m; vocab := v; oov := oov m; min_freq := min_freq m;
     ngram_size := ngram_size m; is_normalized := is_normalized m |}.

Definition set_is_normalized (b : bool) (m : BackoffLM) : BackoffLM :=
  {| table := table m; vocab := vocab m; oov := oov m; min_freq := min_freq m;
     ngram_size := ngram_size m; is_normalized := b |}.

(** ** The monad of methods *)

Inductive exn := SystemExit | KeyError | ZeroDivisionError.

Inductive outcome (A : Type) :=
  | Return (a : A)
  | Raise (e : exn).
Arguments Return {A} a.
Arguments Raise {A} e.

Definition M (A : Type) : Type := BackoffLM → outcome A * BackoffLM.

#[global] Instance M_ret : MRet M := λ A a m, (Return a, m).
#[global] Instance M_bind : MBind M := λ A B f c m,
  match c m with
  | (Return a, m') => f a m'
  | (Raise e, m') => (Raise e, m')
  end.

Definition get : M BackoffLM := λ m, (Return m, m).
Definition modify (f : BackoffLM → BackoffLM) : M unit := λ m, (Return (), f m).
Definition raise {A} (e : exn) : M A := λ m, (Raise e, m).

(** [for x in xs: body(x)] *)
Fixpoint for_each {A} (xs : list A) (body : A → M unit) : M unit :=
  match xs with
  | [] => mret ()
  | x :: xs' => body x;; for_each xs' body
  end.

(** A loop that carries an accumulator. *)
Fixpoint for_acc {A B} (xs : list A) (acc : B) (body : B → A → M B) : M B :=
  match xs with
  | [] => mret acc
  | x :: xs' => acc' ← body acc x; for_acc xs' acc' body
  end.

(** [str.split()]: the maximal runs of characters that are not whitespace
    (space, tab, line feed, vertical tab, form feed, carriage return). *)
Definition split (s : string) : list string := String.words s.

(** ** Dictionaries *)

(** [Counter.__getitem__]: a missing key counts 0 and is not inserted. *)
Definition counter_get (v : Counter) (w : token) : Z := default 0%Z (v !! w).

(** [Counter.update(iterable)] *)
Definition counter_update (v : Counter) (ws : list token) : Counter :=
  foldl (λ v w, <[w := (counter_get v w + 1)%Z]> v) v ws.

(** [dict.keys()] and [dict.values()], also the order in which a [for] loop
    visits a dictionary.  Python leaves that order unspecified; the model
    takes the order of [map_to_list].  It only shows in the state that a loop
    leaves behind when an exception interrupts it. *)
Definition keys {K A} `{Countable K} (d : gmap K A) : list K := (map_to_list d).*1.
Definition values {K A} `{Countable K} (d : gmap K A) : list A := (map_to_list d).*2.

Definition sumZ (l : list Z) : Z := foldl Z.add 0%Z l.
Definition sumQ (l : list Q) : Q := foldl Qplus 0%Q l.

(** [self[context]] of the inherited [dict]: [KeyError] on a missing key. *)
Definition table_get (c : context) : M dist := λ m,
  match table m !! c with
  | Some d => (Return d, m)
  | None => (Raise KeyError, m)
  end.

(** [self[context][word]]: the inner dictionary is a
    [collections.defaultdict(float)], so reading a missing word inserts 0.0. *)
Definition dist_get (c : context) (w : token) : M Q :=
  d ← table_get c;
  match d !! w with
  | Some q => mret q
  | None => modify (λ m, set_table (<[c := <[w := 0%Q]> d]> (table m)) m);; mret 0%Q
  end.

(** [self[context][word] = q] *)
Definition dist_set (c : context) (w : token) (q : Q) : M unit :=
  d ← table_get c;
  modify (λ m, set_table (<[c := <[w := q]> d]> (table m)) m).

(** Float division: Python raises on a zero divisor. *)
Definition py_div (a b : Q) : M Q :=
  if Qeq_bool b 0 then raise ZeroDivisionError else mret (a / b)%Q.

(** ** Vocabulary *)

Definition in_vocab (m : BackoffLM) (w : token) : bool :=
  bool_decide (is_Some (vocab m !! w)).

(** [__to_vocab] on a single word. *)
Definition __to_vocab (m : BackoffLM) (text : token) : token :=
  if in_vocab m text then text else Some (oov m).

(** [__to_vocab] on a tuple. *)
Definition __to_vocab_tuple (m : BackoffLM) (text : context) : context :=
  __to_vocab m <$> text.

(** The words of [oov_words], in the order the loop visits them.  Python
    iterates a [set], whose order is unspecified; the model takes the order
    of [map_to_list]. *)
Definition oov_words (min_freq : Z) (v : Counter) : list token :=
  (filter (λ wc, (wc.2 < min_freq)%Z) (map_to_list v)).*1.

(** The body of [for word in oov_words]. *)
Definition fold_oov (o : token) (v : Counter) (word : token) : Counter :=
  delete word (<[o := (counter_get v o + counter_get v word)%Z]> v).

Definition __train_vocab (utts : list string) : M unit :=
  for_each utts (λ utt,
    modify (λ m, set_vocab (counter_update (vocab m) (None :: (Some <$> split utt))) m));;
  m ← get;
  let ws := oov_words (min_freq m) (vocab m) in
  modify (λ m, set_vocab (<[Some (oov m) := 0%Z]> (vocab m)) m);;
  for_each ws (λ word,
    modify (λ m, set_vocab (fold_oov (Some (oov m)) (vocab m) word) m)).

(** ** N-grams *)

(** All windows of [k] consecutive items. *)
Fixpoint windows {A} (k : nat) (l : list A) : list (list A) :=
  match l with
  | [] => []
  | _ :: l' => if decide (k ≤ length l) then take k l :: windows k l' else []
  end.

(** [nltk.ngrams(sequence, n, pad_left=True, pad_right=True)]: the sequence
    is padded with [n - 1] pad symbols on either side and every window of [n]
    items is produced.  (For [n = 0] the generator of nltk pads nothing and
    yields the items one by one, as for [n = 1].) *)
Definition nltk_ngrams (sequence : list string) (n : nat) : list context :=
  windows (Nat.max n 1)
    (replicate (n - 1) None ++ (Some <$> sequence) ++ replicate (n - 1) None).

Definition __generate_ngrams (text : string) (max_ngram_size : nat) : list context :=
  mjoin ((λ ngram_size, nltk_ngrams (split text) (ngram_size + 1)) <$> seq 0 max_ngram_size).

(** [ngram[:-1]] and [ngram[-1]]; an n-gram of nltk is never empty. *)
Definition ngram_context (ngram : context) : context := removelast ngram.
Definition ngram_word (ngram : context) : token := List.last ngram None.

(** ** Training *)

Definition __observe (word : token) (context : context) : M unit :=
  m ← get;
  let context := __to_vocab_tuple m context in
  let word := __to_vocab m word in
  (if bool_decide (is_Some (table m !! context)) then mret ()
   else modify (λ m, set_table (<[context := ∅]> (table m)) m));;
  c ← dist_get context word;
  dist_set context word (c + 1)%Q.

Definition __normalize : M unit :=
  m ← get;
  for_each (keys (table m)) (λ context,
    m ← get;
    d ← table_get context;
    let count := sumQ (values d) in
    let denom := (count + inject_Z (Z.of_nat (size (vocab m))))%Q in
    for_each (keys d) (λ word,
      c ← dist_get context word;
      q ← py_div (c + 1)%Q denom;
      dist_set context word q);;
    q ← py_div 1%Q (inject_Z (Z.of_nat (size (vocab m))));
    dist_set context (Some (oov m)) q);;
  modify (set_is_normalized true).

Definition train (utts : list string) : M unit :=
  m ← get;
  if is_normalized m then raise SystemExit
  else
    __train_vocab utts;;
    for_each utts (λ utt,
      m ← get;
      for_each (__generate_ngrams utt (ngram_size m)) (λ ngram,
        __observe (ngram_word ngram) (ngram_context ngram)));;
    __normalize.

(** ** Scoring *)

(** The loop of [prob]: [while context not in self and len(context) > 1]. *)
Definition backoff_cond (t : gmap context dist) (c : context) : bool :=
  negb (bool_decide (is_Some (t !! c))) && bool_decide (1 < length c).

Definition backoff_body (c : context) : context := drop 1 c.

(** The loop run with a bound on the number of iterations: [None] when the
    bound is reached before the loop ends, else the final context and the
    number of iterations made. *)
Fixpoint backoff_loop (fuel : nat) (t : gmap context dist) (c : context)
  : option (context * nat) :=
  if backoff_cond t c then
    match fuel with
    | O => None
    | S fuel' =>
        match backoff_loop fuel' t (backoff_body c) with
        | Some (c', k) => Some (c', S k)
        | None => None
        end
    end
  else Some (c, O).

(** The loop as a structural recursion on the context. *)
Fixpoint backoff (t : gmap context dist) (c : context) : context :=
  match c with
  | [] => []
  | _ :: c' => if backoff_cond t c then backoff t c' else c
  end.

Definition __uni_p (word : token) : M Q :=
  m ← get;
  py_div (inject_Z (counter_get (vocab m) word)) (inject_Z (sumZ (values (vocab m)))).

Definition prob (word : token) (context : context) : M Q :=
  m ← get;
  if negb (is_normalized m) then raise SystemExit
  else
    let context := __to_vocab_tuple m context in
    let word := __to_vocab m word in
    let context := backoff (table m) context in
    d ← table_get context;
    if bool_decide (is_Some (d !! word)) then dist_get context word
    else __uni_p word.

(** ** Floats that go through [log2] and [pow] *)

Inductive pyfloat :=
  | Fin (x : R)
  | PInf
  | NInf
  | NaN.

Definition fadd (a b : pyfloat) : pyfloat :=
  match a, b with
  | NaN, _ | _, NaN => NaN
  | PInf, NInf | NInf, PInf => NaN
  | PInf, _ | _, PInf => PInf
  | NInf, _ | _, NInf => NInf
  | Fin x, Fin y => Fin (x + y)
  end.

Definition fneg (a : pyfloat) : pyfloat :=
  match a with
  | Fin x => Fin (- x)
  | PInf => NInf
  | NInf => PInf
  | NaN => NaN
  end.

(** Division of a float by a count.  In [perplexity] the count is
    [len(text) + 1]; in [np.mean] it is the length of the array, and numpy
    divides by zero after IEEE: 0/0 is NaN. *)
Definition fdiv_count (a : pyfloat) (n : nat) : pyfloat :=
  match a with
  | Fin x =>
      match n with
      | O => if Req_dec_T x 0 then NaN else if Rlt_dec 0 x then PInf else NInf
      | S _ => Fin (x / INR n)
      end
  | _ => a
  end.

(** [np.log2] *)
Definition np_log2 (a : pyfloat) : pyfloat :=
  match a with
  | Fin x =>
      if Rlt_dec 0 x then Fin (ln x / ln 2)
      else if Req_dec_T x 0 then NInf else NaN
  | PInf => PInf
  | NInf => NaN
  | NaN => NaN
  end.

(** [pow(2.0, e)] and [np.exp2(e)] *)
Definition np_exp2 (e : pyfloat) : pyfloat :=
  match e with
  | Fin x => Fin (Rpower 2 x)
  | PInf => PInf
  | NInf => Fin 0
  | NaN => NaN
  end.

(** [np.mean]: the sum of the array divided by its length. *)
Definition np_mean (l : list pyfloat) : pyfloat :=
  fdiv_count (foldl fadd (Fin 0) l) (length l).

Definition perplexity (utt : string) : M pyfloat :=
  m ← get;
  let text := split utt in
  let ngrams := nltk_ngrams text (ngram_size m) in
  log_p ← for_acc (removelast ngrams) (Fin 0) (λ log_p ngram,
    p ← prob (ngram_word ngram) (ngram_context ngram);
    mret (fadd log_p (np_log2 (Fin (Q2R p)))));
  let entropy := fdiv_count (fneg log_p) (length text + 1) in
  mret (np_exp2 entropy).

(** [for utt in utts: perplexities.append(self.perplexity(utt))] *)
Fixpoint perplexities_of (utts : list string) : M (list pyfloat) :=
  match utts with
  | [] => mret []
  | utt :: utts' =>
      p ← perplexity utt;
      ps ← perplexities_of utts';
      mret (p :: ps)
  end.

Definition perplexity_multi (utts : list string) : M pyfloat :=
  perplexities ← perplexities_of utts;
  mret (np_exp2 (np_mean (np_log2 <$> perplexities))).

(** * Notions of the specification *)

(** ** Models produced by training *)

(** A model is trained when [train] has run to its end on a freshly
    constructed object. *)
Definition trained (m : BackoffLM) : Prop :=
  ∃ o f n utts, train utts (BackoffLM_init o f n) = (Return (), m).

(** ** Queries *)

Inductive query :=
  | QProb (word : token) (context : context)
  | QPerplexity (utt : string).

(** The object as a query leaves it, whatever the outcome of the query. *)
Definition after_query (m : BackoffLM) (q : query) : BackoffLM :=
  match q with
  | QProb w c => snd (prob w c m)
  | QPerplexity u => snd (perplexity u m)
  end.

(** ** The phases of training in closed form *)

(** The counts after the first loop of [__train_vocab]. *)
Definition count_words (v : Counter) (utts : list string) : Counter :=
  foldl (λ v utt, counter_update v (None :: (Some <$> split utt))) v utts.

(** The vocabulary after the second loop: the rare words folded into the
    out-of-vocabulary token [o]. *)
Definition fold_rare (o : token) (f : Z) (v : Counter) : Counter :=
  foldl (fold_oov o) (<[o := 0%Z]> v) (oov_words f v).

(** The table after [__observe word ctx]. *)
Definition observed (m : BackoffLM) (word : token) (ctx : context)
  : gmap context dist :=
  let c' := __to_vocab_tuple m ctx in
  let w' := __to_vocab m word in
  let d := default ∅ (table m !! c') in
  <[c' := <[w' := (default 0%Q (d !! w') + 1)%Q]> d]> (table m).

(** The body of the outer loop, for one context. *)
Definition normalize_context_body (context : context) : M unit :=
  m ← get;
  d ← table_get context;
  let count := sumQ (values d) in
  let denom := (count + inject_Z (Z.of_nat (size (vocab m))))%Q in
  for_each (keys d) (λ word,
    c ← dist_get context word;
    q ← py_div (c + 1)%Q denom;
    dist_set context word q);;
  q ← py_div 1%Q (inject_Z (Z.of_nat (size (vocab m))));
  dist_set context (Some (oov m)) q.

(** The vocabulary size as a float. *)
Definition vocab_size (m : BackoffLM) : Q := inject_Z (Z.of_nat (size (vocab m))).

(** The distribution that the specification prescribes for a context with
    raw counts [d]: every weight [c] becomes [(c + 1) / (total + V)], then
    the out-of-vocabulary token gets [1 / V]. *)
Definition smoothed (m : BackoffLM) (d : dist) : dist :=
  <[Some (oov m) := (1 / vocab_size m)%Q]>
    ((λ c, (c + 1) / (sumQ (values d) + vocab_size m))%Q <$> d).

(** ** Invariants *)

Definition counts_pos (v : Counter) : Prop :=
  ∀ w c, v !! w = Some c → (1 ≤ c)%Z.

(** Counts are positive, except that of the out-of-vocabulary token [o],
    which may be zero. *)
Definition counts_ok (o : token) (v : Counter) : Prop :=
  ∀ w c, v !! w = Some c → (0 ≤ c)%Z ∧ (w ≠ o → (1 ≤ c)%Z).

Definition dist_nonneg (d : dist) : Prop := ∀ w c, d !! w = Some c → (0 <= c)%Q.

Definition weights_nonneg (m : BackoffLM) : Prop :=
  ∀ ctx d, table m !! ctx = Some d → dist_nonneg d.

(** Raw counts are at least 1. *)
Definition dists_pos (t : gmap context dist) : Prop :=
  ∀ ctx d w c, t !! ctx = Some d → d !! w = Some c → (1 <= c)%Q.

(** The state of a model that [prob] relies on: the flag is set, counts of
    the vocabulary are positive (that of the out-of-vocabulary token may be
    zero), every distribution of the table holds the out-of-vocabulary token
    and all its weights are probabilities in (0, 1]. *)
Definition model_ok (m : BackoffLM) : Prop :=
  is_normalized m = true ∧
  counts_ok (Some (oov m)) (vocab m) ∧
  ∀ ctx d, table m !! ctx = Some d →
    is_Some (d !! Some (oov m)) ∧
    ∀ w p, d !! w = Some p → (0 < p ∧ p <= 1)%Q.

(** ** Perplexity as a formula *)

(** The n-grams that [perplexity] scores: those of the configured order, the
    last one dropped. *)
Definition scored_ngrams (m : BackoffLM) (utt : string) : list context :=
  removelast (nltk_ngrams (split utt) (ngram_size m)).

(** The sum of the base-2 logarithms of probabilities, added to [s]. *)
Definition add_log2 (s : R) (ps : list Q) : R :=
  foldl (λ s p, s + ln (Q2R p) / ln 2)%R s ps.

(** ** Example models *)

(** A model with raw counts, before normalization. *)
Definition model_raw_counts : BackoffLM :=
  {| table := {[ [] := {[ Some "a" := 2%Q ]} ]};
     vocab := {[ Some "a" := 2%Z ]};
     oov := OOV_TOKEN; min_freq := 2; ngram_size := 1;
     is_normalized := false |}.

(** A model trained on a corpus in which no word is rare: nothing is folded
    into the out-of-vocabulary token, which therefore never occurs in a
    context. *)
Definition model_nothing_folded : BackoffLM :=
  snd (train ["a a"; "a a"] (BackoffLM_init OOV_TOKEN 2 2)).

(** The model of the scenario of the specification: three utterances,
    minimum frequency 2, order 2. *)
Definition model_scenario : BackoffLM :=
  snd (train ["the cat sat"; "the cat ran"; "the dog sat"]
         (BackoffLM_init OOV_TOKEN 2 2)).

(** The same corpus with minimum frequency 1 and order 3: every word of the
    corpus is kept, so the out-of-vocabulary token occurs in no context of
    the table. *)
Definition model_all_words : BackoffLM :=
  snd (train ["the cat sat"; "the cat ran"; "the dog sat"]
         (BackoffLM_init OOV_TOKEN 1 3)).


(** * Notions for the further properties *)

(** ** The n-grams of a corpus and their counts *)

(** The n-grams that [train] counts: for every utterance in turn, those of
    all orders up to the configured one. *)
Definition corpus_ngrams (utts : list string) (n : nat) : list context :=
  utts ≫= λ utt, __generate_ngrams utt n.

(** How many of the n-grams [grams] have the context [ctx], once mapped to
    the vocabulary of [m]. *)
Definition context_count (m : BackoffLM) (grams : list context) (ctx : context)
  : nat :=
  length (filter (λ g, __to_vocab_tuple m (ngram_context g) = ctx) grams).

(** How many of them have the context [ctx] and the word [w]. *)
Definition ngram_count (m : BackoffLM) (grams : list context) (ctx : context)
  (w : token) : nat :=
  length (filter (λ g, __to_vocab_tuple m (ngram_context g) = ctx
                       ∧ __to_vocab m (ngram_word g) = w) grams).

(** The table after the counting loop of [train], run on the n-grams
    [grams] from the table [t], with the vocabulary of [m]. *)
Definition count_table (m : BackoffLM) (t : gmap context dist)
  (grams : list context) : gmap context dist :=
  foldl (λ t g, observed (set_table t m) (ngram_word g) (ngram_context g)) t grams.

(** The model after the vocabulary phase of [train] on a fresh object. *)
Definition after_train_vocab (o : string) (f : Z) (n : nat) (utts : list string)
  : BackoffLM :=
  set_vocab (fold_rare (Some o) f (count_words ∅ utts)) (BackoffLM_init o f n).

(** The model after the counting loop. *)
Definition after_counting (o : string) (f : Z) (n : nat) (utts : list string)
  : BackoffLM :=
  set_table (count_table (after_train_vocab o f n utts) ∅ (corpus_ngrams utts n))
    (after_train_vocab o f n utts).

(** The number of tokens of a corpus, one boundary token per utterance
    included. *)
Definition corpus_tokens (utts : list string) : nat :=
  sum_list ((λ utt, S (length (split utt))) <$> utts).

(** The raw counts: a cell of the table holds the number of n-grams with
    that context and word, a context is a key when some n-gram has it, and
    the weights of a context add up to the number of its n-grams. *)
Definition counts_grams (m : BackoffLM) (grams : list context)
  (t : gmap context dist) : Prop :=
  ∀ ctx,
    match t !! ctx with
    | None => context_count m grams ctx = 0
    | Some d =>
        0 < context_count m grams ctx ∧
        (sumQ (values d) == inject_Z (Z.of_nat (context_count m grams ctx)))%Q ∧
        ∀ w, match d !! w with
             | None => ngram_count m grams ctx w = 0
             | Some q =>
                 0 < ngram_count m grams ctx w ∧
                 (q == inject_Z (Z.of_nat (ngram_count m grams ctx w)))%Q
             end
    end.



(** * Utilities around the model *)

(** ** [utils/memoize.py] *)

Section memoize.
Context {A : Type} `{Countable K} {E V : Type}.

(** The dictionary [outputs] is keyed by the tuple of the arguments, and a
    dictionary finds a key by its hash and [==], not by identity.  [key args]
    is the dictionary key that the tuple [args] stands for: two tuples have
    the same one exactly when the dictionary takes one for the other (as it
    does [(1,)], [(True,)] and [(1.0,)]).  Tuples that cannot be hashed are
    no arguments here. *)
Variable key : A → K.

(** The wrapped function: the value it returns for its arguments, or the
    exception it raises.  It is a function of its arguments alone. *)
Variable func : A → E + V.

(** The state of the closure that [memoize(func)] returns: the dictionary
    [outputs], and (for the proofs) the arguments of the calls made to
    [func] so far, in order. *)
Record memo := mkMemo {
  outputs : gmap K V;
  func_calls : list A
}.

(** [memoize(func)]: the closure starts with [outputs = {}]. *)
Definition memoize : memo := {| outputs := ∅; func_calls := [] |}.

(** [inner], called on the tuple of its arguments. *)
Definition inner (args : A) (s : memo) : (E + V) * memo :=
  match outputs s !! key args with
  | Some v => (inr v, s)
  | None =>
      match func args with
      | inr v =>
          (inr v, {| outputs := <[key args := v]> (outputs s);
                     func_calls := func_calls s ++ [args] |})
      | inl e =>
          (inl e, {| outputs := outputs s;
                     func_calls := func_calls s ++ [args] |})
      end
  end.

(** A sequence of calls of [inner], whatever their outcomes: the results
    and the final state. *)
Fixpoint inner_calls (argss : list A) (s : memo) : list (E + V) * memo :=
  match argss with
  | [] => ([], s)
  | args :: argss' =>
      let '(r, s') := inner args s in
      let '(rs, s'') := inner_calls argss' s' in
      (r :: rs, s'')
  end.

(** The value of [func] on [args], if it returns one. *)
Definition cached (args : A) : option V :=
  match func args with inr v => Some v | inl _ => None end.

(** The value that [func] gives the first of the arguments [pre] that have
    the key [k] and on which it returns a value. *)
Definition first_value (pre : list A) (k : K) : option V :=
  head (omap (λ a, if decide (key a = k) then cached a else None) pre).

(** The first value of the earlier calls [pre] for the key of [args] if
    there is one, what [func] does on [args] otherwise. *)
Definition expected (pre : list A) (args : A) : E + V :=
  match first_value pre (key args) with
  | Some v => inr v
  | None => func args
  end.

(** The state of the closure after the calls [pre]. *)
Definition memo_inv (pre : list A) (s : memo) : Prop :=
  (∀ k, outputs s !! k = first_value pre k) ∧
  (∀ a, a ∈ func_calls s → a ∈ pre) ∧
  NoDup (key <$> filter (λ a, is_Some (cached a)) (func_calls s)).
End memoize.

(** Two kinds of Python arguments that a dictionary does not tell apart:
    [1 == True] and [0 == False], with equal hashes. *)
Inductive py_arg :=
  | PyInt (n : Z)
  | PyBool (b : bool).

Definition py_key (a : py_arg) : Z :=
  match a with
  | PyInt n => n
  | PyBool b => if b then 1%Z else 0%Z
  end.

(** ** [utils/misc.py] *)

(** [merge_dictionaries]: [dictionary.update(d)] gives the entries of [d]
    priority over those already there. *)
Definition merge_dictionaries `{Countable K} {V} (dict_list : list (gmap K V))
  : gmap K V :=
  foldl (λ dictionary d, d ∪ dictionary) ∅ dict_list.

(** ** [analysis/session_features.py] *)

(** [get_scores], on the dictionaries [transcript.scores] of the
    transcripts: [scores] is a [defaultdict(list)]. *)
Definition get_scores {S} (transcripts : list (gmap string S))
  : gmap string (list S) :=
  foldl (λ scores transcript,
    foldl (λ scores item,
      <[item.1 := default [] (scores !! item.1) ++ [item.2]]> scores)
      scores (map_to_list transcript))
    ∅ transcripts.

(** ** [utils/reader/switchboard.py] *)

(** A Python 2 [str] is a string of bytes, as a [string] is. *)

(** [string.punctuation]: the 32 characters of ASCII that are neither
    letters, digits, blanks nor control characters (codes 33 to 47, 58 to
    64, 91 to 96 and 123 to 126). *)
Definition is_punctuation (c : Ascii.ascii) : bool :=
  let n := Ascii.nat_of_ascii c in
  (33 <=? n) && (n <=? 47) || (58 <=? n) && (n <=? 64)
  || (91 <=? n) && (n <=? 96) || (123 <=? n) && (n <=? 126).

(** [c.isdigit()] *)
Definition is_digit (c : Ascii.ascii) : bool :=
  let n := Ascii.nat_of_ascii c in (48 <=? n) && (n <=? 57).

Definition is_upper (c : Ascii.ascii) : bool :=
  let n := Ascii.nat_of_ascii c in (65 <=? n) && (n <=? 90).

(** [str.lower()] on one byte. *)
Definition lower (c : Ascii.ascii) : Ascii.ascii :=
  if is_upper c then Ascii.ascii_of_nat (Ascii.nat_of_ascii c + 32) else c.

Fixpoint string_filter (f : Ascii.ascii → bool) (s : string) : string :=
  match s with
  | EmptyString => EmptyString
  | String c s' => if f c then String c (string_filter f s') else string_filter f s'
  end.

Fixpoint string_map (f : Ascii.ascii → Ascii.ascii) (s : string) : string :=
  match s with
  | EmptyString => EmptyString
  | String c s' => String (f c) (string_map f s')
  end.

Fixpoint string_drop (n : nat) (s : string) : string :=
  match n, s with
  | S n', String _ s' => string_drop n' s'
  | _, _ => s
  end.

(** [sep.join(l)] *)
Fixpoint join (sep : string) (l : list string) : string :=
  match l with
  | [] => EmptyString
  | [x] => x
  | x :: l' => x +:+ sep +:+ join sep l'
  end.

(** [re.sub(tag, '', utt)] for a pattern that matches one literal string
    [tag], which is not empty: the matches are taken from the left and do
    not overlap.  [skip] is the number of characters of a match that remain
    to be dropped. *)
Fixpoint re_sub_literal_go (tag : string) (skip : nat) (utt : string) : string :=
  match utt with
  | EmptyString => EmptyString
  | String c utt' =>
      match skip with
      | S skip' => re_sub_literal_go tag skip' utt'
      | O =>
          if String.prefix tag utt
          then re_sub_literal_go tag (String.length tag - 1) utt'
          else String c (re_sub_literal_go tag 0 utt')
      end
  end.

Definition re_sub_literal (tag utt : string) : string :=
  re_sub_literal_go tag 0 utt.

(** The literal strings that the patterns of [REMOVE_TAGS] match. *)
Definition REMOVE_TAGS : list string :=
  ["[laughter]"; "[noise]"; "[silence]"; "[vocalized-noise]"].

(** Whether a closing bracket comes before any line feed: what the rest
    [(.*?)\]] of the laughter pattern needs (the dot matches no line
    feed). *)
Fixpoint closes (s : string) : bool :=
  match s with
  | EmptyString => false
  | String c s' =>
      if Ascii.eqb c "]"%char then true
      else if Ascii.eqb c "010"%char then false
      else closes s'
  end.

(** [re.sub(r'\[laughter-(.*?)\]', r'\1', utt)]: a match keeps what is
    between the opening "[laughter-" and the first closing bracket.  [skip]
    counts the characters of the opening that remain to be dropped, [inside]
    tells that the closing bracket of a match is still to come. *)
Fixpoint unwrap_laughter_go (skip : nat) (inside : bool) (utt : string) : string :=
  match utt with
  | EmptyString => EmptyString
  | String c utt' =>
      match skip with
      | S skip' => unwrap_laughter_go skip' inside utt'
      | O =>
          if inside then
            if Ascii.eqb c "]"%char then unwrap_laughter_go 0 false utt'
            else String c (unwrap_laughter_go 0 true utt')
          else if String.prefix "[laughter-" utt && closes (string_drop 10 utt)
          then unwrap_laughter_go 9 true utt'
          else String c (unwrap_laughter_go 0 false utt')
      end
  end.

Definition unwrap_laughter (utt : string) : string :=
  unwrap_laughter_go 0 false utt.

(** [clean_utterance] (the function that [memoize] wraps). *)
Definition clean_utterance (utt : string) : string :=
  let utt := foldl (λ utt tag, re_sub_literal tag utt) utt REMOVE_TAGS in
  let utt := unwrap_laughter utt in
  let utt := string_filter (λ c, negb (is_punctuation c)) utt in
  let utt := string_filter (λ c, negb (is_digit c)) utt in
  let utt := join " " (split utt) in
  string_map lower utt.

(** [get_transcript_utterances], on the lines read from the transcript
    file: the first three fields of a line are dropped, and an utterance
    that is empty once cleaned is not yielded. *)
Definition get_transcript_utterances (lines : list string) : list string :=
  omap (λ line,
    let utt := join " " (drop 3 (split line)) in
    let utt := clean_utterance utt in
    if decide (utt = EmptyString) then None else Some utt) lines.

(** [get_utterances], on the lines of the transcript files of the corpus. *)
Definition get_utterances (transcripts : list (list string)) : list string :=
  transcripts ≫= get_transcript_utterances.

(** The characters of a string. *)
Fixpoint chars (s : string) : list Ascii.ascii :=
  match s with
  | EmptyString => []
  | String c s' => c :: chars s'
  end.

(** A character that [clean_utterance] lets through inside a word. *)
Definition clean_char (c : Ascii.ascii) : Prop :=
  Ascii.is_space c = false ∧ is_punctuation c = false ∧
  is_digit c = false ∧ is_upper c = false.

(** A word of a cleaned utterance: not empty, made of such characters. *)
Definition clean_word (w : string) : Prop :=
  w ≠ EmptyString ∧ Forall clean_char (chars w).

(** The accumulator of [words_go] after the characters of a word. *)
Fixpoint push_word (w : string) (cur : option string) : option string :=
  match w with
  | EmptyString => cur
  | String a w' => push_word w' (Some (from_option (String a) (String a "") cur))
  end.

(** * Proofs *)

Ltac unfold_monad :=
  unfold mbind, M_bind, mret, M_ret, get, modify, raise in *.

(** ** The monad *)

Lemma bind_return {A B} (c : M A) (f : A → M B) m a m' :
  c m = (Return a, m') → (c ≫= f) m = f a m'.
Proof. intros E. unfold_monad. by rewrite E. Qed.

Lemma bind_raise {A B} (c : M A) (f : A → M B) m e m' :
  c m = (Raise e, m') → (c ≫= f) m = (Raise e, m').
Proof. intros E. unfold_monad. by rewrite E. Qed.

Lemma bind_inv {A B} (c : M A) (f : A → M B) m b m' :
  (c ≫= f) m = (Return b, m') →
  ∃ a m1, c m = (Return a, m1) ∧ f a m1 = (Return b, m').
Proof.
  unfold_monad. destruct (c m) as [[a|e] m1]; intros E; [eauto | discriminate].
Qed.

(** ** Scoring leaves the object alone *)

Lemma table_get_frame c m : snd (table_get c m) = m.
Proof. unfold table_get. by destruct (table m !! c). Qed.

Lemma py_div_frame a b m : snd (py_div a b m) = m.
Proof. unfold py_div. by destruct (Qeq_bool b 0). Qed.

Lemma uni_p_frame w m : snd (__uni_p w m) = m.
Proof. unfold __uni_p. unfold_monad. apply py_div_frame. Qed.

Lemma prob_frame w c m : snd (prob w c m) = m.
Proof.
  unfold prob. unfold_monad. destruct (is_normalized m); simpl; [|done].
  set (c' := backoff _ _). set (w' := __to_vocab m w).
  unfold table_get. destruct (table m !! c') as [d|] eqn:Ed; [|done].
  destruct (bool_decide_reflect (is_Some (d !! w'))) as [[q Hq]|_].
  - unfold dist_get. unfold_monad. unfold table_get. by rewrite Ed, Hq.
  - apply uni_p_frame.
Qed.

Lemma for_acc_frame {A B} (body : B → A → M B) xs acc m :
  (∀ acc x m, snd (body acc x m) = m) → snd (for_acc xs acc body m) = m.
Proof.
  intros Hb. revert acc. induction xs as [|x xs IH]; intros acc; [done|].
  simpl. unfold_monad. specialize (Hb acc x m).
  destruct (body acc x m) as [[acc'|e] m1]; simpl in Hb; subst; [apply IH | done].
Qed.

Lemma perplexity_frame u m : snd (perplexity u m) = m.
Proof.
  unfold perplexity. unfold mbind at 1. unfold M_bind, get. unfold mbind at 1.
  unfold M_bind.
  match goal with |- context [for_acc ?xs ?a ?b m] =>
    assert (snd (for_acc xs a b m) = m) as Hf;
    [|by destruct (for_acc xs a b m) as [[log_p|e] m1]] end.
  apply for_acc_frame. intros acc x m2. unfold_monad.
  pose proof (prob_frame (ngram_word x) (ngram_context x) m2) as Hp.
  by destruct (prob _ _ m2) as [[p|e] m3].
Qed.

Lemma after_query_frame m q : after_query m q = m.
Proof. destruct q; simpl; [apply prob_frame | apply perplexity_frame]. Qed.

(** C9.  Scoring immutability: whatever queries ([prob] or [perplexity], with
    any arguments, in any number and order) are evaluated on a model, the
    whole object (vocabulary, context table, out-of-vocabulary token, minimum
    frequency, n-gram order and normalized flag) is the same afterwards.  It
    holds for every model, so in particular for every normalized one. *)
Theorem scoring_leaves_model_unchanged (m : BackoffLM) (qs : list query) :
  foldl after_query m qs = m.
Proof.
  induction qs as [|q qs IH]; simpl; [done|]. by rewrite after_query_frame.
Qed.

(** ** The normalized flag as a guard *)

Lemma train_after_normalize utts m :
  is_normalized m = true → train utts m = (Raise SystemExit, m).
Proof. intros H. unfold train. unfold_monad. by rewrite H. Qed.

Lemma prob_before_normalize w c m :
  is_normalized m = false → prob w c m = (Raise SystemExit, m).
Proof. intros H. unfold prob. unfold_monad. by rewrite H. Qed.

(** [perplexity] has no guard of its own: it is rejected by the guard of
    [prob], when the first n-gram is scored. *)
Lemma perplexity_before_normalize u m :
  is_normalized m = false →
  removelast (nltk_ngrams (split u) (ngram_size m)) ≠ [] →
  perplexity u m = (Raise SystemExit, m).
Proof.
  intros H Hne. unfold perplexity. unfold mbind at 1. unfold M_bind, get.
  destruct (removelast _) as [|g gs]; [done|].
  unfold mbind at 1. unfold M_bind. simpl for_acc. unfold mbind at 1.
  unfold M_bind. unfold mbind at 1. unfold M_bind.
  by rewrite prob_before_normalize.
Qed.

Lemma length_windows {A} (k : nat) (l : list A) :
  1 ≤ k → length (windows k l) = length l + 1 - k.
Proof.
  intros Hk. induction l as [|x l IH]; simpl; [lia|].
  destruct (decide (k ≤ S (length l))); simpl; [rewrite IH|]; lia.
Qed.

Lemma length_nltk_ngrams s n :
  1 ≤ n → length (nltk_ngrams s n) = length s + n - 1.
Proof.
  intros Hn. unfold nltk_ngrams. rewrite length_windows by lia.
  rewrite !length_app, !length_replicate, length_fmap. lia.
Qed.

Lemma length_removelast {A} (l : list A) : length (removelast l) = length l - 1.
Proof.
  induction l as [|x [|y l] IH]; [done..|].
  change (removelast (x :: y :: l)) with (x :: removelast (y :: l)).
  simpl length in *. lia.
Qed.

(** With the default order 3 (or any larger one) some n-gram is always
    scored, and [perplexity] is rejected before normalization. *)
Lemma perplexity_before_normalize_order3 u m :
  is_normalized m = false → 3 ≤ ngram_size m →
  perplexity u m = (Raise SystemExit, m).
Proof.
  intros H Hn. apply perplexity_before_normalize; [done|].
  intros E. apply (f_equal length) in E.
  rewrite length_removelast, length_nltk_ngrams in E by lia. simpl in E. lia.
Qed.

Lemma Rpower_2_0 : Rpower 2 0 = 1%R.
Proof. apply Rpower_O. lra. Qed.

(** When no n-gram is scored the guard is never reached. *)
Lemma perplexity_no_ngram u m :
  removelast (nltk_ngrams (split u) (ngram_size m)) = [] →
  perplexity u m = (Return (Fin 1), m).
Proof.
  intros E. unfold perplexity. unfold_monad. rewrite E. simpl.
  rewrite Nat.add_1_r. unfold fdiv_count.
  replace (- 0 / INR (S (length (split u))))%R with 0%R.
  - unfold np_exp2. by rewrite Rpower_2_0.
  - pose proof (not_0_INR (S (length (split u)))). field. auto.
Qed.

(** C5.  The state machine is broken by [perplexity] on a model that was
    never normalized: with order 2 the empty utterance has the single padded
    2-gram, which is dropped, so [prob] and its guard are never reached and
    1.0 is returned. *)
Theorem perplexity_before_normalize_returns :
  is_normalized (BackoffLM_init OOV_TOKEN 2 2) = false ∧
  perplexity "" (BackoffLM_init OOV_TOKEN 2 2)
    = (Return (Fin 1), BackoffLM_init OOV_TOKEN 2 2).
Proof. split; [done|]. by apply perplexity_no_ngram. Qed.

(** ** Backoff *)

Lemma backoff_loop_backoff t c :
  ∃ k, backoff_loop (length c) t c = Some (backoff t c, k) ∧ k ≤ length c - 1.
Proof.
  induction c as [|x c IH].
  - exists 0. simpl. unfold backoff_cond. simpl. by rewrite andb_false_r.
  - change (backoff_loop (length (x :: c)) t (x :: c)) with
      (if backoff_cond t (x :: c) then
         match backoff_loop (length c) t c with
         | Some (c', k) => Some (c', S k)
         | None => None
         end
       else Some (x :: c, 0)).
    change (backoff t (x :: c)) with
      (if backoff_cond t (x :: c) then backoff t c else x :: c).
    destruct (backoff_cond t (x :: c)) eqn:Hc.
    + destruct IH as (k & -> & Hk). exists (S k). split; [done|].
      unfold backoff_cond in Hc. apply andb_true_iff in Hc as [_ Hc].
      apply bool_decide_eq_true in Hc. simpl in *. lia.
    + exists 0. split; [done | lia].
Qed.

Lemma backoff_exit t c : backoff_cond t (backoff t c) = false.
Proof.
  induction c as [|x c IH]; simpl.
  - unfold backoff_cond. simpl. by rewrite andb_false_r.
  - by destruct (backoff_cond t (x :: c)) eqn:Hc.
Qed.

(** The loop ends within [len(context)] iterations, on a context that is a
    key of the table or has at most one token. *)
Lemma backoff_terminates t c :
  ∃ c' k, backoff_loop (length c) t c = Some (c', k) ∧ k ≤ length c ∧
          (is_Some (t !! c') ∨ length c' ≤ 1).
Proof.
  destruct (backoff_loop_backoff t c) as (k & E & Hk).
  exists (backoff t c), k. split; [done|]. split; [lia|].
  pose proof (backoff_exit t c) as Hx. unfold backoff_cond in Hx.
  apply andb_false_iff in Hx as [Hx|Hx].
  - left. apply negb_false_iff, bool_decide_eq_true in Hx. done.
  - right. apply bool_decide_eq_false in Hx. lia.
Qed.

(** What [prob] does once the loop has ended on a key of the table. *)
Lemma prob_known_context w c m d :
  is_normalized m = true →
  table m !! backoff (table m) (__to_vocab_tuple m c) = Some d →
  prob w c m =
    match d !! __to_vocab m w with
    | Some p => (Return p, m)
    | None => __uni_p (__to_vocab m w) m
    end.
Proof.
  intros Hn Hd. unfold prob. unfold_monad. rewrite Hn. simpl.
  unfold table_get at 1. rewrite Hd.
  destruct (bool_decide_reflect (is_Some (d !! __to_vocab m w))) as [[q Hq]|Hq].
  - unfold dist_get. unfold_monad. unfold table_get. by rewrite Hd, Hq.
  - destruct (d !! __to_vocab m w); [|done]. by destruct Hq.
Qed.

(** What it does when the loop has ended on a context that is no key. *)
Lemma prob_unknown_context w c m :
  is_normalized m = true →
  table m !! backoff (table m) (__to_vocab_tuple m c) = None →
  prob w c m = (Raise KeyError, m).
Proof.
  intros Hn Hd. unfold prob. unfold_monad. rewrite Hn. simpl.
  unfold table_get. by rewrite Hd.
Qed.

(** C2.  [prob] throws on a trained, normalized model: the word "zzz" of the
    context is mapped to the out-of-vocabulary token, the context of that one
    token is no key of the table, the loop stops at length 1 and the lookup
    [self[context]] raises [KeyError]. *)
Theorem prob_raises_KeyError :
  train ["a a"; "a a"] (BackoffLM_init OOV_TOKEN 2 2)
    = (Return (), model_nothing_folded) ∧
  is_normalized model_nothing_folded = true ∧
  prob (Some "a") [Some "zzz"] model_nothing_folded
    = (Raise KeyError, model_nothing_folded).
Proof. vm_compute. done. Qed.

(** ** The empty corpus *)

(** C8, as stated, fails on the default configuration: training on the empty
    corpus raises nothing and yields a normalized model whose vocabulary is
    the out-of-vocabulary token alone, with count zero. *)
Lemma empty_corpus_not_rejected :
  train [] (BackoffLM_init OOV_TOKEN 2 3)
    = (Return (),
       {| table := ∅; vocab := {[Some OOV_TOKEN := 0%Z]}; oov := OOV_TOKEN;
          min_freq := 2; ngram_size := 3; is_normalized := true |}).
Proof. vm_compute. done. Qed.

(** C8, amended.  Whatever the configuration, [train] on the empty sequence
    of utterances completes without an error: the vocabulary it leaves holds
    the out-of-vocabulary token alone, with count zero, the context table is
    empty and the model is marked normalized. *)
Theorem train_completes_on_no_utterance (o : string) (f : Z) (n : nat) :
  train [] (BackoffLM_init o f n)
    = (Return (),
       {| table := ∅; vocab := {[Some o := 0%Z]}; oov := o;
          min_freq := f; ngram_size := n; is_normalized := true |}).
Proof.
  unfold train, __train_vocab, __normalize. unfold_monad. simpl.
  unfold oov_words, keys. by rewrite !map_to_list_empty.
Qed.

(** ** Batches of utterances *)

(** C10.  On the empty sequence of utterances [perplexity_multi] calls
    nothing and raises nothing: the array of logarithms is empty, its mean is
    0/0, which is NaN, and 2 to the NaN is NaN.  The model is left as it
    was. *)
Theorem perplexity_multi_empty (m : BackoffLM) :
  perplexity_multi [] m = (Return NaN, m).
Proof.
  unfold perplexity_multi. unfold_monad. simpl. unfold np_mean. simpl.
  destruct (Req_dec_T 0 0); [done | lra].
Qed.

Lemma ln_2_pos : (0 < ln 2)%R.
Proof. rewrite <- ln_1. apply ln_increasing; lra. Qed.

(** ** Dictionary accesses *)

Lemma set_table_id m : set_table (table m) m = m.
Proof. by destruct m. Qed.

Lemma dist_get_Some c w m d q :
  table m !! c = Some d → d !! w = Some q → dist_get c w m = (Return q, m).
Proof.
  intros Hd Hq. unfold dist_get, table_get. unfold_monad. by rewrite Hd, Hq.
Qed.

Lemma dist_get_None c w m d :
  table m !! c = Some d → d !! w = None →
  dist_get c w m = (Return 0%Q, set_table (<[c := <[w := 0%Q]> d]> (table m)) m).
Proof.
  intros Hd Hq. unfold dist_get, table_get. unfold_monad. by rewrite Hd, Hq.
Qed.

Lemma dist_set_Some c w q m d :
  table m !! c = Some d →
  dist_set c w q m = (Return (), set_table (<[c := <[w := q]> d]> (table m)) m).
Proof. intros Hd. unfold dist_set, table_get. unfold_monad. by rewrite Hd. Qed.

Lemma py_div_Return a b m : ¬ (b == 0)%Q → py_div a b m = (Return (a / b)%Q, m).
Proof.
  intros Hb. unfold py_div. destruct (Qeq_bool b 0) eqn:E; [|done].
  by apply Qeq_bool_iff in E.
Qed.

Lemma py_div_Raise a b m : (b == 0)%Q → py_div a b m = (Raise ZeroDivisionError, m).
Proof.
  intros Hb. unfold py_div. apply Qeq_bool_iff in Hb. by rewrite Hb.
Qed.

Lemma elem_of_keys {K A} `{Countable K} (d : gmap K A) (k : K) :
  k ∈ keys d ↔ is_Some (d !! k).
Proof.
  unfold keys. rewrite list_elem_of_fmap. split.
  - intros [[k' a] [-> Hin]]. apply elem_of_map_to_list in Hin. eauto.
  - intros [a Ha]. exists (k, a). split; [done|]. by apply elem_of_map_to_list.
Qed.

Lemma NoDup_keys {K A} `{Countable K} (d : gmap K A) : NoDup (keys d).
Proof. apply NoDup_fst_map_to_list. Qed.

Lemma elem_of_values {K A} `{Countable K} (d : gmap K A) (a : A) :
  a ∈ values d ↔ ∃ k, d !! k = Some a.
Proof.
  unfold values. rewrite list_elem_of_fmap. split.
  - intros [[k a'] [-> Hin]]. apply elem_of_map_to_list in Hin. eauto.
  - intros [k Hk]. exists (k, a). split; [done|]. by apply elem_of_map_to_list.
Qed.

(** ** Sums of weights *)

Lemma foldl_Qplus_le (l : list Q) (acc : Q) :
  Forall (λ x, 0 <= x)%Q l → (acc <= foldl Qplus acc l)%Q.
Proof.
  intros Hl. revert acc. induction Hl as [|x l Hx Hl IH]; intros acc; simpl.
  - lra.
  - specialize (IH (acc + x)%Q). lra.
Qed.

Lemma foldl_Qplus_elem (l : list Q) (acc x : Q) :
  Forall (λ x, 0 <= x)%Q l → x ∈ l → (acc + x <= foldl Qplus acc l)%Q.
Proof.
  intros Hl. revert acc. induction Hl as [|y l Hy Hl IH]; intros acc Hin; simpl.
  - by apply elem_of_nil in Hin.
  - apply elem_of_cons in Hin as [->|Hin].
    + apply foldl_Qplus_le. done.
    + specialize (IH (acc + y)%Q Hin). lra.
Qed.

Lemma values_nonneg d : dist_nonneg d → Forall (λ x, 0 <= x)%Q (values d).
Proof.
  intros Hd. apply Forall_forall. intros x Hx.
  apply elem_of_values in Hx as [w Hw]. eauto.
Qed.

Lemma sumQ_nonneg d : dist_nonneg d → (0 <= sumQ (values d))%Q.
Proof. intros Hd. by apply foldl_Qplus_le, values_nonneg. Qed.

Lemma sumQ_lookup d w c :
  dist_nonneg d → d !! w = Some c → (c <= sumQ (values d))%Q.
Proof.
  intros Hd Hw. unfold sumQ.
  pose proof (foldl_Qplus_elem (values d) 0 c (values_nonneg d Hd)) as H.
  assert (c ∈ values d) as Hin by (apply elem_of_values; eauto).
  specialize (H Hin). lra.
Qed.

(** ** Normalization *)

Lemma vocab_size_pos m : size (vocab m) ≠ 0 → (0 < vocab_size m)%Q.
Proof.
  intros H. unfold vocab_size. change 0%Q with (inject_Z 0).
  rewrite <- Zlt_Qlt. lia.
Qed.

(** The inner loop [for word in self[context]]. *)
Lemma normalize_words ctx denom ks :
  ¬ (denom == 0)%Q → NoDup ks →
  ∀ m d, table m !! ctx = Some d → (∀ w, w ∈ ks → is_Some (d !! w)) →
  ∃ d', for_each ks (λ word,
          c ← dist_get ctx word;
          q ← py_div (c + 1)%Q denom;
          dist_set ctx word q) m
        = (Return (), set_table (<[ctx := d']> (table m)) m) ∧
        ∀ w, d' !! w = if decide (w ∈ ks)
                       then (λ c, (c + 1) / denom)%Q <$> d !! w else d !! w.
Proof.
  intros Hden Hnd. induction Hnd as [|w ks Hw Hnd IH]; intros m d Hd Hks.
  - exists d. split.
    + simpl. unfold_monad. by rewrite insert_id, set_table_id.
    + intros w. destruct (decide (w ∈ [])) as [Hin|]; [|done].
      by apply elem_of_nil in Hin.
  - destruct (Hks w) as [c Hc]; [by left|].
    set (q := ((c + 1) / denom)%Q).
    set (m1 := set_table (<[ctx := <[w := q]> d]> (table m)) m).
    destruct (IH m1 (<[w := q]> d)) as (d' & E & Hd').
    { simpl. apply lookup_insert_eq. }
    { intros w' Hw'. rewrite lookup_insert_ne; [|by intros ->].
      apply Hks. by right. }
    exists d'. split.
    + simpl for_each. erewrite bind_return; [rewrite E|].
      * unfold m1. simpl. by rewrite insert_insert_eq.
      * erewrite bind_return; [|by eapply dist_get_Some].
        erewrite bind_return; [|by apply py_div_Return].
        by apply dist_set_Some.
    + intros w'. rewrite Hd'. destruct (decide (w' = w)) as [->|Hne].
      * rewrite decide_False by done. rewrite decide_True by left.
        by rewrite lookup_insert_eq, Hc.
      * rewrite lookup_insert_ne by done.
        destruct (decide (w' ∈ ks)) as [Hin|Hin].
        -- rewrite decide_True; [done | by right].
        -- rewrite decide_False; [done|]. by intros [?|?]%elem_of_cons.
Qed.

Lemma normalize_unfold m :
  __normalize m =
    (for_each (keys (table m)) normalize_context_body;;
     modify (set_is_normalized true)) m.
Proof. done. Qed.

Lemma normalize_context ctx m d :
  table m !! ctx = Some d → size (vocab m) ≠ 0 → dist_nonneg d →
  normalize_context_body ctx m
    = (Return (), set_table (<[ctx := smoothed m d]> (table m)) m).
Proof.
  intros Hd HV Hnn. pose proof (vocab_size_pos m HV) as HVpos.
  pose proof (sumQ_nonneg d Hnn) as Hsum.
  unfold normalize_context_body.
  erewrite bind_return; [|done].
  erewrite bind_return; [|by unfold table_get; rewrite Hd].
  cbv zeta. fold (vocab_size m).
  destruct (normalize_words ctx (sumQ (values d) + vocab_size m)%Q (keys d))
    with (m := m) (d := d) as (d' & E & Hd'); [lra | apply NoDup_keys | done | |].
  { intros w. by rewrite elem_of_keys. }
  assert (d' = (λ c, (c + 1) / (sumQ (values d) + vocab_size m))%Q <$> d) as ->.
  { apply map_eq. intros w. rewrite Hd', lookup_fmap.
    destruct (decide (w ∈ keys d)) as [|Hin]; [done|].
    rewrite elem_of_keys in Hin. apply eq_None_not_Some in Hin. by rewrite Hin. }
  erewrite bind_return; [|exact E].
  erewrite bind_return; [|apply py_div_Return; lra].
  erewrite dist_set_Some; [|simpl; apply lookup_insert_eq].
  simpl. by rewrite insert_insert_eq.
Qed.

(** The outer loop [for context in self]. *)
Lemma normalize_contexts ks :
  NoDup ks →
  ∀ m, size (vocab m) ≠ 0 →
  (∀ ctx, ctx ∈ ks → ∃ d, table m !! ctx = Some d ∧ dist_nonneg d) →
  ∃ t', for_each ks normalize_context_body m = (Return (), set_table t' m) ∧
        ∀ ctx, t' !! ctx = if decide (ctx ∈ ks)
                           then smoothed m <$> table m !! ctx else table m !! ctx.
Proof.
  intros Hnd. induction Hnd as [|ctx ks Hctx Hnd IH]; intros m HV Hks.
  - exists (table m). split.
    + simpl. unfold_monad. by rewrite set_table_id.
    + intros ctx. destruct (decide (ctx ∈ [])) as [Hin|]; [|done].
      by apply elem_of_nil in Hin.
  - destruct (Hks ctx) as (d & Hd & Hnn); [by left|].
    set (m1 := set_table (<[ctx := smoothed m d]> (table m)) m).
    destruct (IH m1) as (t' & E & Ht'); [done| |].
    { intros ctx' Hin. simpl. rewrite lookup_insert_ne; [|by intros ->].
      apply Hks. by right. }
    exists t'. split.
    + simpl for_each. erewrite bind_return; [|by apply normalize_context].
      fold m1. by rewrite E.
    + intros ctx'. rewrite Ht'. simpl. destruct (decide (ctx' = ctx)) as [->|Hne].
      * rewrite decide_False by done. rewrite decide_True by left.
        by rewrite lookup_insert_eq, Hd.
      * rewrite lookup_insert_ne by done.
        destruct (decide (ctx' ∈ ks)) as [Hin|Hin].
        -- rewrite decide_True; [done | by right].
        -- rewrite decide_False; [done|]. by intros [?|?]%elem_of_cons.
Qed.

(** [__normalize] in closed form. *)
Lemma normalize_smoothed m :
  size (vocab m) ≠ 0 → weights_nonneg m →
  __normalize m
    = (Return (), set_is_normalized true (set_table (smoothed m <$> table m) m)).
Proof.
  intros HV Hnn. rewrite normalize_unfold.
  destruct (normalize_contexts (keys (table m)) (NoDup_keys _) m HV)
    as (t' & E & Ht').
  { intros ctx [d Hd]%elem_of_keys. eauto. }
  erewrite bind_return; [|exact E]. unfold_monad. do 3 f_equal.
  apply map_eq. intros ctx. rewrite Ht', lookup_fmap.
  destruct (decide (ctx ∈ keys (table m))) as [|Hin]; [done|].
  rewrite elem_of_keys in Hin. apply eq_None_not_Some in Hin. by rewrite Hin.
Qed.

(** C1.  Normalization, for a model with a non-empty vocabulary and
    non-negative raw counts: [__normalize] ends without an exception, sets
    the normalized flag, keeps the vocabulary and the set of contexts, and
    for every context with raw counts [d], with [total] the sum of the counts
    of [d] and [V] the number of vocabulary entries, the new distribution
    gives the out-of-vocabulary token exactly [1 / V] (whatever its count
    was) and gives every other observed token of count [c] the weight
    [(c + 1) / (total + V)]; tokens that were not observed, other than the
    out-of-vocabulary token, stay absent. *)
Theorem normalize_laplace_smoothing (m : BackoffLM) :
  size (vocab m) ≠ 0 →
  (∀ ctx d w c, table m !! ctx = Some d → d !! w = Some c → (0 <= c)%Q) →
  ∃ m', __normalize m = (Return (), m') ∧
        is_normalized m' = true ∧ vocab m' = vocab m ∧
        (∀ ctx, table m !! ctx = None → table m' !! ctx = None) ∧
        ∀ ctx d, table m !! ctx = Some d →
          let total := sumQ (values d) in
          let V := inject_Z (Z.of_nat (size (vocab m))) in
          ∃ d', table m' !! ctx = Some d' ∧
                d' !! Some (oov m) = Some (1 / V)%Q ∧
                ∀ w, w ≠ Some (oov m) →
                     d' !! w = (λ c, (c + 1) / (total + V))%Q <$> d !! w.
Proof.
  intros HV Hnn. eexists. split; [apply normalize_smoothed; [done|]|].
  { intros ctx d Hd w c Hw. eauto. }
  simpl. split; [done|]. split; [done|]. split.
  - intros ctx Hctx. by rewrite lookup_fmap, Hctx.
  - intros ctx d Hd. exists (smoothed m d). rewrite lookup_fmap, Hd.
    split; [done|]. unfold smoothed. split.
    + by rewrite lookup_insert_eq.
    + intros w Hw. by rewrite lookup_insert_ne, lookup_fmap.
Qed.

Lemma normalize_laplace_smoothing_witness :
  ∃ m', __normalize model_raw_counts = (Return (), m') ∧
        is_normalized m' = true ∧ vocab m' = vocab model_raw_counts ∧
        (∀ ctx, table model_raw_counts !! ctx = None → table m' !! ctx = None) ∧
        ∀ ctx d, table model_raw_counts !! ctx = Some d →
          let total := sumQ (values d) in
          let V := inject_Z (Z.of_nat (size (vocab model_raw_counts))) in
          ∃ d', table m' !! ctx = Some d' ∧
                d' !! Some (oov model_raw_counts) = Some (1 / V)%Q ∧
                ∀ w, w ≠ Some (oov model_raw_counts) →
                     d' !! w = (λ c, (c + 1) / (total + V))%Q <$> d !! w.
Proof.
  apply (normalize_laplace_smoothing model_raw_counts).
  - vm_compute. lia.
  - intros ctx d w c Hd Hw. unfold model_raw_counts in Hd. cbn [table] in Hd.
    apply lookup_singleton_Some in Hd as [_ <-].
    apply lookup_singleton_Some in Hw as [_ <-]. vm_compute. discriminate.
Defined.

(** ** Building the vocabulary *)

Lemma for_each_modify {A} (f : A → BackoffLM → BackoffLM) xs m :
  for_each xs (λ x, modify (f x)) m = (Return (), foldl (λ m x, f x m) m xs).
Proof.
  revert m. induction xs as [|x xs IH]; intros m; [done|].
  simpl. unfold_monad. apply IH.
Qed.

Lemma foldl_set_vocab {A} (g : Counter → A → Counter) xs m :
  foldl (λ m x, set_vocab (g (vocab m) x) m) m xs
    = set_vocab (foldl g (vocab m) xs) m.
Proof.
  revert m. induction xs as [|x xs IH]; intros m; simpl.
  - by destruct m.
  - by rewrite IH.
Qed.

Lemma foldl_set_vocab_oov {A} (g : token → Counter → A → Counter) xs m :
  foldl (λ m x, set_vocab (g (Some (oov m)) (vocab m) x) m) m xs
    = set_vocab (foldl (g (Some (oov m))) (vocab m) xs) m.
Proof.
  revert m. induction xs as [|x xs IH]; intros m; simpl.
  - by destruct m.
  - by rewrite IH.
Qed.

(** [__train_vocab] in closed form. *)
Lemma train_vocab_closed utts m :
  __train_vocab utts m
    = (Return (),
       set_vocab (fold_rare (Some (oov m)) (min_freq m)
                    (count_words (vocab m) utts)) m).
Proof.
  unfold __train_vocab.
  erewrite bind_return; [|apply for_each_modify]. cbv beta.
  rewrite (foldl_set_vocab (λ v utt, counter_update v (None :: (Some <$> split utt)))).
  fold (count_words (vocab m) utts).
  erewrite bind_return; [|done]. cbv zeta.
  erewrite bind_return; [|done].
  rewrite (for_each_modify (λ word m, set_vocab (fold_oov (Some (oov m)) (vocab m) word) m)).
  cbv beta. by rewrite (foldl_set_vocab_oov fold_oov).
Qed.

Lemma counter_get_pos v w : counts_pos v → (0 ≤ counter_get v w)%Z.
Proof.
  intros Hv. unfold counter_get. destruct (v !! w) as [c|] eqn:E; simpl; [|lia].
  specialize (Hv w c E). lia.
Qed.

Lemma counter_update_pos v ws : counts_pos v → counts_pos (counter_update v ws).
Proof.
  unfold counter_update. revert v. induction ws as [|w ws IH]; intros v Hv; [done|].
  simpl. apply IH. intros w' c. destruct (decide (w' = w)) as [->|Hne].
  - rewrite lookup_insert_eq. intros [= <-].
    pose proof (counter_get_pos v w Hv). lia.
  - rewrite lookup_insert_ne by done. apply Hv.
Qed.

Lemma count_words_pos v utts : counts_pos v → counts_pos (count_words v utts).
Proof.
  unfold count_words. revert v. induction utts as [|u utts IH]; intros v Hv; [done|].
  apply (IH (counter_update v (None :: (Some <$> split u)))).
  by apply counter_update_pos.
Qed.

Lemma counter_get_ok o v w : counts_ok o v → (0 ≤ counter_get v w)%Z.
Proof.
  intros Hv. unfold counter_get. destruct (v !! w) as [c|] eqn:E; simpl; [|lia].
  by destruct (Hv w c E).
Qed.

Lemma fold_oov_ok o v w : counts_ok o v → counts_ok o (fold_oov o v w).
Proof.
  intros Hv w' c. unfold fold_oov.
  destruct (decide (w' = w)) as [->|Hne]; [by rewrite lookup_delete_eq|].
  rewrite lookup_delete_ne by done.
  destruct (decide (w' = o)) as [->|Hne'].
  - rewrite lookup_insert_eq. intros [= <-].
    pose proof (counter_get_ok o v o Hv). pose proof (counter_get_ok o v w Hv).
    split; [lia | done].
  - rewrite lookup_insert_ne by done. apply Hv.
Qed.

Lemma fold_rare_ok o f v : counts_pos v → counts_ok o (fold_rare o f v).
Proof.
  intros Hv. unfold fold_rare.
  assert (counts_ok o (<[o := 0%Z]> v)) as H0.
  { intros w c. destruct (decide (w = o)) as [->|Hne].
    - rewrite lookup_insert_eq. intros [= <-]. done.
    - rewrite lookup_insert_ne by done. intros Hw. specialize (Hv w c Hw).
      split; [lia | done]. }
  revert H0. generalize (<[o := 0%Z]> v). generalize (oov_words f v).
  intros ws. induction ws as [|w ws IH]; intros v' Hv'; [done|].
  simpl. by apply IH, fold_oov_ok.
Qed.

(** ** Counting n-grams *)

Lemma observe_closed w c m :
  __observe w c m = (Return (), set_table (observed m w c) m).
Proof.
  unfold __observe, observed. erewrite bind_return; [|done]. cbv zeta.
  set (c' := __to_vocab_tuple m c). set (w' := __to_vocab m w).
  destruct (table m !! c') as [d|] eqn:Ed; simpl.
  - erewrite bind_return; [|done].
    destruct (d !! w') as [q|] eqn:Eq; simpl.
    + erewrite bind_return; [|by eapply dist_get_Some].
      by erewrite dist_set_Some.
    + erewrite bind_return; [|by eapply dist_get_None].
      erewrite dist_set_Some; [|simpl; apply lookup_insert_eq].
      simpl. by rewrite !insert_insert_eq.
  - erewrite bind_return; [|done].
    erewrite bind_return;
      [|eapply dist_get_None; [simpl; apply lookup_insert_eq | apply lookup_empty]].
    erewrite dist_set_Some; [|simpl; apply lookup_insert_eq].
    simpl. rewrite lookup_empty. simpl. by rewrite !insert_insert_eq.
Qed.

Lemma observed_pos m w c : dists_pos (table m) → dists_pos (observed m w c).
Proof.
  intros Ht ctx d w' q. unfold observed.
  set (c' := __to_vocab_tuple m c). set (w0 := __to_vocab m w).
  destruct (decide (ctx = c')) as [->|Hne].
  - rewrite lookup_insert_eq. intros [= <-].
    destruct (decide (w' = w0)) as [->|Hne].
    + rewrite lookup_insert_eq. intros [= <-].
      destruct (table m !! c') as [d|] eqn:Ed; simpl.
      * destruct (d !! w0) as [q|] eqn:Eq; simpl; [|lra].
        specialize (Ht c' d w0 q Ed Eq). lra.
      * rewrite lookup_empty. simpl. lra.
    + rewrite lookup_insert_ne by done.
      destruct (table m !! c') as [d|] eqn:Ed; simpl.
      * apply (Ht c' d w' q Ed).
      * by rewrite lookup_empty.
  - rewrite lookup_insert_ne by done. apply Ht.
Qed.

Lemma for_each_inv {A} (P : BackoffLM → Prop) (body : A → M unit) xs m :
  (∀ x m, P m → ∃ m', body x m = (Return (), m') ∧ P m') →
  P m → ∃ m', for_each xs body m = (Return (), m') ∧ P m'.
Proof.
  intros Hb. revert m. induction xs as [|x xs IH]; intros m Hm.
  - exists m. done.
  - destruct (Hb x m Hm) as (m1 & E1 & H1).
    destruct (IH m1 H1) as (m2 & E2 & H2).
    exists m2. split; [|done]. simpl. by erewrite bind_return.
Qed.

(** The counting loop of [train] only changes the table, and leaves raw
    counts that are at least 1. *)
Lemma train_counts utts m :
  dists_pos (table m) →
  ∃ t, for_each utts (λ utt,
         m ← get;
         for_each (__generate_ngrams utt (ngram_size m)) (λ ngram,
           __observe (ngram_word ngram) (ngram_context ngram))) m
       = (Return (), set_table t m) ∧ dists_pos t.
Proof.
  intros Hm.
  set (P := λ m' : BackoffLM, ∃ t, m' = set_table t m ∧ dists_pos t).
  assert (P m) as HP by (exists (table m); by rewrite set_table_id).
  match goal with |- ∃ t, for_each utts ?body m = _ ∧ _ =>
    destruct (for_each_inv P body utts m) as (m' & E & (t & -> & Ht)) end;
    [|done|by eauto].
  intros utt m1 H1. erewrite bind_return; [|done].
  apply for_each_inv; [|done].
  intros ngram m2 (t & -> & Ht). rewrite observe_closed.
  eexists. split; [done|]. eexists. split; [done|].
  by apply observed_pos.
Qed.

(** ** Normalization with an empty vocabulary *)

Lemma normalize_context_empty_vocab ctx m d :
  size (vocab m) = 0 → table m !! ctx = Some d →
  ∃ e m', normalize_context_body ctx m = (Raise e, m').
Proof.
  intros HV Hd. unfold normalize_context_body.
  erewrite bind_return; [|done].
  erewrite bind_return; [|by unfold table_get; rewrite Hd].
  cbv zeta.
  match goal with |- ∃ e m', (?c ≫= ?f) m = _ =>
    destruct (c m) as [[[]|e] m1] eqn:E end.
  - erewrite bind_return; [|exact E].
    erewrite bind_raise; [eauto|]. apply py_div_Raise. by rewrite HV.
  - erewrite bind_raise; [eauto|exact E].
Qed.

Lemma normalize_empty_vocab m m' :
  size (vocab m) = 0 → __normalize m = (Return (), m') →
  table m = ∅ ∧ m' = set_is_normalized true m.
Proof.
  intros HV. rewrite normalize_unfold.
  destruct (keys (table m)) as [|ctx ks] eqn:Ek.
  - unfold keys in Ek. apply fmap_nil_inv in Ek.
    apply map_to_list_empty_iff in Ek. unfold_monad. simpl.
    by intros [= <-].
  - assert (ctx ∈ keys (table m)) as [d Hd]%elem_of_keys by (rewrite Ek; left).
    destruct (normalize_context_empty_vocab ctx m d HV Hd) as (e & m1 & E).
    simpl for_each. erewrite bind_raise; [done|].
    erewrite bind_raise; [done|exact E].
Qed.

(** ** What training establishes *)

Lemma Qdiv_unit_range (a b : Q) : (0 < a → a <= b → 0 < a / b ∧ a / b <= 1)%Q.
Proof.
  intros Ha Hab. assert (0 < b)%Q as Hb by lra. split.
  - apply Qlt_shift_div_l; [done | lra].
  - apply Qle_shift_div_r; [done | lra].
Qed.

Lemma vocab_size_ge1 m : size (vocab m) ≠ 0 → (1 <= vocab_size m)%Q.
Proof.
  intros H. unfold vocab_size. change 1%Q with (inject_Z 1).
  rewrite <- Zle_Qle. lia.
Qed.

Lemma smoothed_ok m d :
  size (vocab m) ≠ 0 → (∀ w c, d !! w = Some c → (1 <= c)%Q) →
  is_Some (smoothed m d !! Some (oov m)) ∧
  ∀ w p, smoothed m d !! w = Some p → (0 < p ∧ p <= 1)%Q.
Proof.
  intros HV Hd. pose proof (vocab_size_ge1 m HV) as HV1. unfold smoothed. split.
  - rewrite lookup_insert_eq. eauto.
  - intros w p. destruct (decide (w = Some (oov m))) as [->|Hne].
    + rewrite lookup_insert_eq. intros [= <-]. apply Qdiv_unit_range; lra.
    + rewrite lookup_insert_ne, lookup_fmap by done.
      destruct (d !! w) as [c|] eqn:Ec; simpl; [|done]. intros [= <-].
      assert (dist_nonneg d) as Hnn.
      { intros w' c' Hw'. specialize (Hd w' c' Hw'). lra. }
      pose proof (sumQ_lookup d w c Hnn Ec). specialize (Hd w c Ec).
      apply Qdiv_unit_range; lra.
Qed.

Lemma dists_pos_empty : dists_pos ∅.
Proof. intros ctx d w c. by rewrite lookup_empty. Qed.

Lemma counts_pos_empty : counts_pos ∅.
Proof. intros w c. by rewrite lookup_empty. Qed.

(** The three phases of [train] on a model that is not normalized. *)
Lemma train_phases utts m m' :
  is_normalized m = false → dists_pos (table m) →
  train utts m = (Return (), m') →
  ∃ t, dists_pos t ∧
       __normalize
         (set_table t
            (set_vocab (fold_rare (Some (oov m)) (min_freq m)
                          (count_words (vocab m) utts)) m))
       = (Return (), m').
Proof.
  intros Hn Ht E. unfold train in E.
  apply bind_inv in E as (m1 & m2 & [= <- <-] & E). rewrite Hn in E.
  apply bind_inv in E as ([] & m1 & E1 & E).
  rewrite train_vocab_closed in E1. injection E1 as <-.
  apply bind_inv in E as ([] & m2 & E2 & E).
  match type of E2 with for_each _ _ ?m1 = _ =>
    destruct (train_counts utts m1 Ht) as (t & Et & Htp) end.
  rewrite Et in E2. injection E2 as <-. eauto.
Qed.

Lemma trained_ok m : trained m → model_ok m.
Proof.
  intros (o & f & n & utts & E).
  apply train_phases in E as (t & Ht & E); [|done|apply dists_pos_empty].
  simpl in E.
  match type of E with __normalize ?x = _ => set (m2 := x) in * end.
  assert (counts_ok (Some o) (vocab m2)) as Hv.
  { apply fold_rare_ok, count_words_pos, counts_pos_empty. }
  destruct (decide (size (vocab m2) = 0)) as [HV|HV].
  - apply normalize_empty_vocab in E as [Hempty ->]; [|done].
    split; [done|]. split; [done|]. simpl. intros ctx d.
    simpl in Hempty. by rewrite Hempty, lookup_empty.
  - rewrite normalize_smoothed in E; [|done|].
    + injection E as <-. split; [done|]. split; [done|]. simpl.
      intros ctx d'. rewrite lookup_fmap.
      destruct (t !! ctx) as [d|] eqn:Ed; simpl; [|done]. intros [= <-].
      apply (smoothed_ok m2 d HV). intros w c. apply (Ht ctx d w c Ed).
    + intros ctx d Hd w c Hw. specialize (Ht ctx d w c Hd Hw). lra.
Qed.

(** ** The range of probabilities *)

Lemma foldl_Zadd_le (l : list Z) (acc : Z) :
  Forall (λ x, 0 ≤ x)%Z l → (acc ≤ foldl Z.add acc l)%Z.
Proof.
  intros Hl. revert acc. induction Hl as [|x l Hx Hl IH]; intros acc; simpl.
  - lia.
  - specialize (IH (acc + x)%Z). lia.
Qed.

Lemma foldl_Zadd_elem (l : list Z) (acc x : Z) :
  Forall (λ x, 0 ≤ x)%Z l → x ∈ l → (acc + x ≤ foldl Z.add acc l)%Z.
Proof.
  intros Hl. revert acc. induction Hl as [|y l Hy Hl IH]; intros acc Hin; simpl.
  - by apply elem_of_nil in Hin.
  - apply elem_of_cons in Hin as [->|Hin].
    + by apply foldl_Zadd_le.
    + specialize (IH (acc + y)%Z Hin). lia.
Qed.

Lemma sumZ_lookup o v w c :
  counts_ok o v → v !! w = Some c → (c ≤ sumZ (values v))%Z.
Proof.
  intros Hv Hw. unfold sumZ.
  assert (Forall (λ x, 0 ≤ x)%Z (values v)) as Hall.
  { apply Forall_forall. intros x [w' Hw']%elem_of_values.
    by destruct (Hv w' x Hw'). }
  assert (c ∈ values v) as Hin by (apply elem_of_values; eauto).
  pose proof (foldl_Zadd_elem (values v) 0 c Hall Hin). lia.
Qed.

(** The unigram probability of a word with a positive count. *)
Lemma uni_p_range m w c :
  counts_ok (Some (oov m)) (vocab m) → vocab m !! w = Some c → (1 ≤ c)%Z →
  ∃ p, __uni_p w m = (Return p, m) ∧
       p = (inject_Z c / inject_Z (sumZ (values (vocab m))))%Q ∧
       (0 < p ∧ p <= 1)%Q.
Proof.
  intros Hv Hw Hc. pose proof (sumZ_lookup _ _ _ _ Hv Hw) as Hsum.
  assert (0 < inject_Z c)%Q as Hc'.
  { change 0%Q with (inject_Z 0). rewrite <- Zlt_Qlt. lia. }
  assert (inject_Z c <= inject_Z (sumZ (values (vocab m))))%Q as Hsum'.
  { by rewrite <- Zle_Qle. }
  eexists. split; [|split; [reflexivity|by apply Qdiv_unit_range]].
  unfold __uni_p. erewrite bind_return; [|done].
  unfold counter_get. rewrite Hw. simpl. apply py_div_Return. lra.
Qed.

Lemma prob_range m w c :
  model_ok m →
  match prob w c m with
  | (Return p, _) => (0 < p ∧ p <= 1)%Q
  | (Raise e, _) =>
      e = KeyError ∧ table m !! backoff (table m) (__to_vocab_tuple m c) = None
  end.
Proof.
  intros (Hn & Hv & Ht).
  destruct (table m !! backoff (table m) (__to_vocab_tuple m c)) as [d|] eqn:Ed.
  - rewrite (prob_known_context w c m d Hn Ed).
    destruct (Ht _ d Ed) as [Hoov Hd].
    destruct (d !! __to_vocab m w) as [p|] eqn:Ep; [by apply (Hd _ _ Ep)|].
    unfold __to_vocab, in_vocab in *.
    destruct (bool_decide_reflect (is_Some (vocab m !! w))) as [[k Hk]|_].
    + assert (w ≠ Some (oov m)) as Hne.
      { intros ->. rewrite Ep in Hoov. by destruct Hoov. }
      destruct (Hv w k Hk) as [_ Hk1].
      destruct (uni_p_range m w k Hv Hk (Hk1 Hne)) as (p & -> & _ & Hp). done.
    + rewrite Ep in Hoov. by destruct Hoov.
  - by rewrite prob_unknown_context.
Qed.

(** On a trained model the word that reaches the unigram fallback is a word
    of the vocabulary with a positive count: the out-of-vocabulary token is
    in every distribution, so it never falls through. *)
Lemma fallback_word m w d :
  model_ok m → table m !! d.1 = Some d.2 → d.2 !! __to_vocab m w = None →
  ∃ k, vocab m !! __to_vocab m w = Some k ∧ (1 ≤ k)%Z.
Proof.
  intros (Hn & Hv & Ht) Hd Ep. destruct (Ht _ _ Hd) as [Hoov _].
  unfold __to_vocab, in_vocab in *.
  destruct (bool_decide_reflect (is_Some (vocab m !! w))) as [[k Hk]|_].
  - assert (w ≠ Some (oov m)) as Hne.
    { intros ->. rewrite Ep in Hoov. by destruct Hoov. }
    destruct (Hv w k Hk) as [_ Hk1]. eauto.
  - rewrite Ep in Hoov. by destruct Hoov.
Qed.

(** Probability positivity, on a trained model: a value returned by
    [prob] is a rational in (0, 1] (the only other outcome is the [KeyError]
    raised when the context left by the backoff loop is no key of the table);
    in particular, whenever the unigram fallback is taken (the context is a
    key and the mapped word is not among its next-tokens), [prob] returns the
    count of the mapped word divided by the sum of all vocabulary counts, and
    that quotient is positive and at most 1. *)
Theorem prob_positive (m : BackoffLM) (word : token) (ctx : context) :
  trained m →
  match fst (prob word ctx m) with
  | Return p => (0 < p ∧ p <= 1)%Q
  | Raise e =>
      e = KeyError ∧
      table m !! backoff (table m) (__to_vocab_tuple m ctx) = None
  end ∧
  ∀ d, table m !! backoff (table m) (__to_vocab_tuple m ctx) = Some d →
       d !! __to_vocab m word = None →
       ∃ p, prob word ctx m = (Return p, m) ∧
            p = (inject_Z (counter_get (vocab m) (__to_vocab m word))
                 / inject_Z (sumZ (values (vocab m))))%Q ∧
            (0 < p ∧ p <= 1)%Q.
Proof.
  intros Hok%trained_ok. split.
  - pose proof (prob_range m word ctx Hok) as H.
    by destruct (prob word ctx m) as [[p|e] m'].
  - intros d Hd Hw.
    destruct (fallback_word m word (_, d) Hok Hd Hw) as (k & Hk & Hk1).
    destruct Hok as (Hn & Hv & Ht).
    rewrite (prob_known_context word ctx m d Hn Hd), Hw.
    destruct (uni_p_range m _ k Hv Hk Hk1) as (p & E & -> & Hp).
    eexists. split; [exact E|]. split; [|done].
    unfold counter_get. by rewrite Hk.
Qed.

Lemma prob_positive_witness :
  match fst (prob None [Some "the"] model_scenario) with
  | Return p => (0 < p ∧ p <= 1)%Q
  | Raise e =>
      e = KeyError ∧
      table model_scenario
        !! backoff (table model_scenario)
             (__to_vocab_tuple model_scenario [Some "the"]) = None
  end ∧
  ∀ d, table model_scenario
         !! backoff (table model_scenario)
              (__to_vocab_tuple model_scenario [Some "the"]) = Some d →
       d !! __to_vocab model_scenario None = None →
       ∃ p, prob None [Some "the"] model_scenario = (Return p, model_scenario) ∧
            p = (inject_Z (counter_get (vocab model_scenario)
                             (__to_vocab model_scenario None))
                 / inject_Z (sumZ (values (vocab model_scenario))))%Q ∧
            (0 < p ∧ p <= 1)%Q.
Proof.
  apply (prob_positive model_scenario None [Some "the"]).
  exists OOV_TOKEN, 2%Z, 2, ["the cat sat"; "the cat ran"; "the dog sat"].
  vm_compute. reflexivity.
Defined.

Lemma trained_model_all_words : trained model_all_words.
Proof.
  exists OOV_TOKEN, 1%Z, 3, ["the cat sat"; "the cat ran"; "the dog sat"].
  vm_compute. reflexivity.
Qed.

(** C3.  [prob] returns no float for a word of the vocabulary on a trained,
    normalized model: the context holds the unseen word "bird", which is
    mapped to the out-of-vocabulary token; neither the context of two tokens
    nor the one of the out-of-vocabulary token alone is a key of the table
    (no word of the corpus was folded), the loop stops there and the lookup
    [self[context]] raises [KeyError]. *)
Theorem prob_returns_no_float :
  trained model_all_words ∧
  is_normalized model_all_words = true ∧
  in_vocab model_all_words (Some "sat") = true ∧
  backoff (table model_all_words)
    (__to_vocab_tuple model_all_words [Some "the"; Some "bird"])
    = [Some OOV_TOKEN] ∧
  table model_all_words !! [Some OOV_TOKEN] = None ∧
  prob (Some "sat") [Some "the"; Some "bird"] model_all_words
    = (Raise KeyError, model_all_words).
Proof.
  split; [apply trained_model_all_words|]. vm_compute. done.
Qed.

(** ** Perplexity *)

Lemma log2_unit_range (p : Q) : (0 < p ∧ p <= 1)%Q → (ln (Q2R p) / ln 2 <= 0)%R.
Proof.
  intros [H0 H1]. apply Qlt_Rlt in H0. apply Qle_Rle in H1.
  rewrite RMicromega.Q2R_0 in H0. rewrite RMicromega.Q2R_1 in H1.
  assert (ln (Q2R p) <= 0)%R as Hln.
  { destruct H1 as [H1| ->]; [|rewrite ln_1; lra].
    pose proof (ln_increasing _ _ H0 H1) as H. rewrite ln_1 in H. lra. }
  pose proof ln_2_pos as H2. unfold Rdiv.
  assert (0 < / ln 2)%R by (by apply Rinv_0_lt_compat). nra.
Qed.

Lemma add_log2_nonpos s ps :
  (s <= 0)%R → Forall (λ p, 0 < p ∧ p <= 1)%Q ps → (add_log2 s ps <= 0)%R.
Proof.
  intros Hs Hps. revert s Hs. induction Hps as [|p ps Hp Hps IH]; intros s Hs.
  - done.
  - simpl. apply IH. pose proof (log2_unit_range p Hp). lra.
Qed.

Lemma np_log2_prob (p : Q) :
  (0 < p)%Q → np_log2 (Fin (Q2R p)) = Fin (ln (Q2R p) / ln 2).
Proof.
  intros H0%Qlt_Rlt. rewrite RMicromega.Q2R_0 in H0. simpl.
  by destruct (Rlt_dec 0 (Q2R p)).
Qed.

Lemma for_acc_cons {A B} (x : A) xs (acc : B) (body : B → A → M B) :
  for_acc (x :: xs) acc body = (acc' ← body acc x; for_acc xs acc' body).
Proof. done. Qed.

(** The scoring loop. *)
Lemma score_loop m gs s :
  model_ok m →
  match for_acc gs (Fin s) (λ log_p ngram,
          p ← prob (ngram_word ngram) (ngram_context ngram);
          mret (fadd log_p (np_log2 (Fin (Q2R p))))) m with
  | (Return a, m') =>
      m' = m ∧
      ∃ ps, Forall2 (λ g p, prob (ngram_word g) (ngram_context g) m = (Return p, m))
              gs ps ∧
            Forall (λ p, 0 < p ∧ p <= 1)%Q ps ∧
            a = Fin (add_log2 s ps)
  | (Raise e, _) => e = KeyError
  end.
Proof.
  intros Hok. revert s. induction gs as [|g gs IH]; intros s.
  - simpl. split; [done|]. exists []. by repeat constructor.
  - rewrite for_acc_cons.
    pose proof (prob_range m (ngram_word g) (ngram_context g) Hok) as Hp.
    pose proof (prob_frame (ngram_word g) (ngram_context g) m) as Hf.
    destruct (prob (ngram_word g) (ngram_context g) m) as [[p|e] m1] eqn:Ep;
      simpl in Hf; subst m1.
    + erewrite bind_return; [|by erewrite bind_return; [|exact Ep]].
      rewrite np_log2_prob by apply Hp.
      change (fadd (Fin s) (Fin (ln (Q2R p) / ln 2)))
        with (Fin (s + ln (Q2R p) / ln 2)).
      specialize (IH (s + ln (Q2R p) / ln 2)%R).
      match goal with |- context [for_acc gs ?a ?b m] =>
        destruct (for_acc gs a b m) as [[a'|e'] m'] end; [|done].
      destruct IH as (-> & ps & Hps & Hrange & ->). split; [done|].
      exists (p :: ps). split; [by constructor|]. split; [by constructor|done].
    + erewrite bind_raise; [|by erewrite bind_raise; [|exact Ep]].
      by destruct Hp.
Qed.

Lemma Rpower_2_ge1 x : (0 <= x)%R → (1 <= Rpower 2 x)%R.
Proof.
  intros Hx. rewrite <- Rpower_2_0. apply Rle_Rpower; lra.
Qed.

(** Perplexity lower bound, on a trained model: a value returned by
    [perplexity] is a finite number that is at least 1.  It is 2 to the
    entropy, the entropy being the negated sum of the base-2 logarithms of
    the probabilities of the scored n-grams (those of the configured order,
    the last one dropped) divided by the number of tokens of the utterance
    plus 1.  The only other outcome is the [KeyError] of [prob]. *)
Theorem perplexity_at_least_one (m : BackoffLM) (utt : string) :
  trained m →
  match fst (perplexity utt m) with
  | Return v =>
      ∃ ps, Forall2 (λ g p, prob (ngram_word g) (ngram_context g) m = (Return p, m))
              (scored_ngrams m utt) ps ∧
            v = Fin (Rpower 2 (- add_log2 0 ps / INR (length (split utt) + 1))) ∧
            (1 <= Rpower 2 (- add_log2 0 ps / INR (length (split utt) + 1)))%R
  | Raise e => e = KeyError
  end.
Proof.
  intros Hok%trained_ok.
  pose proof (score_loop m (scored_ngrams m utt) 0 Hok) as H.
  unfold perplexity. erewrite bind_return; [|done]. cbv zeta.
  fold (scored_ngrams m utt).
  match type of H with (let (_, _) := ?t in _) =>
    destruct t as [[a'|e'] m'] eqn:E end.
  - destruct H as (-> & ps & Hps & Hrange & ->).
    erewrite bind_return; [|exact E]. simpl.
    exists ps. split; [done|].
    pose proof (add_log2_nonpos 0 ps (Rle_refl 0) Hrange) as Hs.
    rewrite Nat.add_1_r. split; [done|].
    apply Rpower_2_ge1.
    pose proof (lt_0_INR (S (length (split utt)))) as Hpos.
    assert (0 < INR (S (length (split utt))))%R as Hn by (apply Hpos; lia).
    unfold Rdiv. assert (0 < / INR (S (length (split utt))))%R
      by (by apply Rinv_0_lt_compat).
    nra.
  - erewrite bind_raise; [|exact E]. done.
Qed.

Lemma perplexity_at_least_one_witness :
  match fst (perplexity "the cat sat" model_scenario) with
  | Return v =>
      ∃ ps, Forall2 (λ g p, prob (ngram_word g) (ngram_context g) model_scenario
                            = (Return p, model_scenario))
              (scored_ngrams model_scenario "the cat sat") ps ∧
            v = Fin (Rpower 2 (- add_log2 0 ps / INR (length (split "the cat sat") + 1))) ∧
            (1 <= Rpower 2 (- add_log2 0 ps / INR (length (split "the cat sat") + 1)))%R
  | Raise e => e = KeyError
  end.
Proof.
  apply (perplexity_at_least_one model_scenario "the cat sat").
  exists OOV_TOKEN, 2%Z, 2, ["the cat sat"; "the cat ran"; "the dog sat"].
  vm_compute. reflexivity.
Defined.

(** The scoring loop stops at the first n-gram on which [prob] raises. *)
Lemma score_loop_raise m gs1 g gs2 acc e :
  Forall (λ g, ∃ p, prob (ngram_word g) (ngram_context g) m = (Return p, m)) gs1 →
  prob (ngram_word g) (ngram_context g) m = (Raise e, m) →
  for_acc (gs1 ++ g :: gs2) acc (λ log_p ngram,
    p ← prob (ngram_word ngram) (ngram_context ngram);
    mret (fadd log_p (np_log2 (Fin (Q2R p))))) m = (Raise e, m).
Proof.
  intros Hgs1 Hg. revert acc.
  induction Hgs1 as [|g1 gs1 [p Hp] _ IH]; intros acc.
  - change ([] ++ g :: gs2) with (g :: gs2). rewrite for_acc_cons.
    erewrite bind_raise; [done|]. by erewrite bind_raise.
  - change ((g1 :: gs1) ++ g :: gs2) with (g1 :: (gs1 ++ g :: gs2)).
    rewrite for_acc_cons. erewrite bind_return; [apply IH|].
    by erewrite bind_return.
Qed.

Lemma perplexity_raise m utt gs1 g gs2 e :
  scored_ngrams m utt = gs1 ++ g :: gs2 →
  Forall (λ g, ∃ p, prob (ngram_word g) (ngram_context g) m = (Return p, m)) gs1 →
  prob (ngram_word g) (ngram_context g) m = (Raise e, m) →
  perplexity utt m = (Raise e, m).
Proof.
  intros Hgs Hgs1 Hg. unfold perplexity. erewrite bind_return; [|done].
  cbv zeta. fold (scored_ngrams m utt). rewrite Hgs.
  erewrite bind_raise; [done|]. by apply score_loop_raise.
Qed.

(** C6.  [perplexity] returns no number on a trained, normalized model: of
    the four 3-grams scored for "the bird sat" the first two have a
    probability, and [prob] raises [KeyError] on the third, whose context
    holds the unseen word "bird"; [perplexity] raises it in turn. *)
Theorem perplexity_returns_no_float :
  trained model_all_words ∧
  scored_ngrams model_all_words "the bird sat"
    = [[None; None; Some "the"]; [None; Some "the"; Some "bird"];
       [Some "the"; Some "bird"; Some "sat"]; [Some "bird"; Some "sat"; None]] ∧
  perplexity "the bird sat" model_all_words = (Raise KeyError, model_all_words).
Proof.
  split; [apply trained_model_all_words|]. split; [vm_compute; done|].
  apply (perplexity_raise model_all_words "the bird sat"
           [[None; None; Some "the"]; [None; Some "the"; Some "bird"]]
           [Some "the"; Some "bird"; Some "sat"]
           [[Some "bird"; Some "sat"; None]]).
  - vm_compute. done.
  - repeat constructor; eexists; vm_compute; reflexivity.
  - vm_compute. done.
Qed.

(** ** Folding rare words into the out-of-vocabulary token *)

Lemma NoDup_oov_words f v : NoDup (oov_words f v).
Proof.
  unfold oov_words. eapply sublist_NoDup; [apply (NoDup_fst_map_to_list v)|].
  apply fmap_sublist, sublist_filter.
Qed.

Lemma elem_of_oov_words f v w :
  w ∈ oov_words f v ↔ ∃ c, v !! w = Some c ∧ (c < f)%Z.
Proof.
  unfold oov_words. rewrite list_elem_of_fmap. split.
  - intros [[w' c] [-> [Hc Hin]%list_elem_of_filter]].
    apply elem_of_map_to_list in Hin. eauto.
  - intros (c & Hw & Hc). exists (w, c). split; [done|].
    apply list_elem_of_filter. split; [done|]. by apply elem_of_map_to_list.
Qed.

Lemma foldl_Zadd_acc (l : list Z) (acc : Z) :
  foldl Z.add acc l = (acc + foldl Z.add 0 l)%Z.
Proof.
  revert acc. induction l as [|x l IH]; intros acc; simpl; [lia|].
  rewrite (IH (acc + x)%Z), (IH (0 + x)%Z). lia.
Qed.

Lemma sumZ_cons x l : sumZ (x :: l) = (x + sumZ l)%Z.
Proof. unfold sumZ. simpl. rewrite foldl_Zadd_acc. lia. Qed.

(** The second loop of [__train_vocab], when the out-of-vocabulary token [o]
    is not itself one of the words it visits. *)
Lemma foldl_fold_oov_count o ws :
  NoDup ws → o ∉ ws →
  ∀ v : Counter, is_Some (v !! o) →
    foldl (fold_oov o) v ws !! o
      = Some (counter_get v o + sumZ (counter_get v <$> ws))%Z.
Proof.
  intros Hnd. induction Hnd as [|w ws Hw Hnd IH]; intros Ho v [c Hc].
  - simpl. unfold counter_get, sumZ. rewrite Hc. simpl. f_equal. lia.
  - apply not_elem_of_cons in Ho as [How Ho].
    set (v' := fold_oov o v w).
    assert (v' !! o = Some (counter_get v o + counter_get v w)%Z) as Ho'.
    { unfold v', fold_oov. by rewrite lookup_delete_ne, lookup_insert_eq. }
    assert (∀ k, k ≠ o → k ≠ w → v' !! k = v !! k) as Hk'.
    { intros k ? ?. unfold v', fold_oov.
      by rewrite lookup_delete_ne, lookup_insert_ne. }
    assert (counter_get v' <$> ws = counter_get v <$> ws) as Hws.
    { apply Forall_fmap_ext, Forall_forall. intros k Hk. unfold counter_get.
      rewrite Hk'; [done| |]; by intros ->. }
    change (foldl (fold_oov o) v (w :: ws)) with (foldl (fold_oov o) v' ws).
    rewrite IH by eauto. rewrite Hws, fmap_cons, sumZ_cons.
    unfold counter_get at 1. rewrite Ho'. simpl. f_equal. lia.
Qed.

Lemma foldl_fold_oov_other o ws :
  NoDup ws → o ∉ ws →
  ∀ (v : Counter) k, k ≠ o →
    foldl (fold_oov o) v ws !! k = if decide (k ∈ ws) then None else v !! k.
Proof.
  intros Hnd. induction Hnd as [|w ws Hw Hnd IH]; intros Ho v k Hk.
  - rewrite decide_False; [done | apply not_elem_of_nil].
  - apply not_elem_of_cons in Ho as [How Ho].
    change (foldl (fold_oov o) v (w :: ws))
      with (foldl (fold_oov o) (fold_oov o v w) ws).
    rewrite IH by done. unfold fold_oov.
    destruct (decide (k = w)) as [->|Hne].
    + rewrite decide_False by done. rewrite decide_True by left.
      by rewrite lookup_delete_eq.
    + rewrite lookup_delete_ne, lookup_insert_ne by done.
      destruct (decide (k ∈ ws)) as [Hin|Hin].
      * rewrite decide_True; [done | by right].
      * rewrite decide_False; [done|]. by intros [?|?]%elem_of_cons.
Qed.

(** The vocabulary invariant of [__train_vocab], when the out-of-vocabulary
    token is not itself a rare word of the corpus: the token is present, its
    count is the sum of the counts of the removed words, the removed words
    are gone, and every other word that is retained keeps its count, which
    is at least the minimum frequency. *)
Lemma train_vocab_folding utts m :
  Some (oov m) ∉ oov_words (min_freq m) (count_words (vocab m) utts) →
  ∃ m', __train_vocab utts m = (Return (), m') ∧
        let v1 := count_words (vocab m) utts in
        let removed := oov_words (min_freq m) v1 in
        vocab m' !! Some (oov m) = Some (sumZ (counter_get v1 <$> removed)) ∧
        (∀ w, w ∈ removed → vocab m' !! w = None) ∧
        (∀ w c, w ≠ Some (oov m) → vocab m' !! w = Some c →
                (min_freq m ≤ c)%Z ∧ v1 !! w = Some c).
Proof.
  intros Ho. eexists. split; [apply train_vocab_closed|]. simpl.
  set (o := Some (oov m)) in *. set (v1 := count_words (vocab m) utts) in *.
  set (ws := oov_words (min_freq m) v1) in *.
  pose proof (NoDup_oov_words (min_freq m) v1) as Hnd. fold ws in Hnd.
  unfold fold_rare. fold ws.
  assert (∀ k, k ≠ o →
    foldl (fold_oov o) (<[o:=0%Z]> v1) ws !! k
      = if decide (k ∈ ws) then None else v1 !! k) as Hother.
  { intros k Hk. rewrite foldl_fold_oov_other by done.
    by rewrite lookup_insert_ne. }
  split; [|split].
  - rewrite foldl_fold_oov_count; [|done..|by rewrite lookup_insert_eq].
    unfold counter_get at 1. rewrite lookup_insert_eq. simpl. f_equal.
    rewrite Z.add_0_l. f_equal.
    apply Forall_fmap_ext, Forall_forall. intros k Hk.
    unfold counter_get. rewrite lookup_insert_ne; [done|]. by intros <-.
  - intros w Hw. rewrite Hother; [|by intros ->]. by rewrite decide_True.
  - intros w c Hw. rewrite Hother by done.
    destruct (decide (w ∈ ws)) as [|Hin]; [done|]. intros Hc.
    split; [|done]. destruct (Z.le_gt_cases (min_freq m) c) as [|Hlt]; [done|].
    destruct Hin. apply elem_of_oov_words. eauto.
Qed.

Lemma counter_update_lookup (v : Counter) ws w :
  is_Some (counter_update v ws !! w) → is_Some (v !! w) ∨ w ∈ ws.
Proof.
  unfold counter_update. revert v. induction ws as [|x ws IH]; intros v; [by left|].
  intros H. apply IH in H as [H|H]; [|right; by right].
  destruct (decide (w = x)) as [->|Hne]; [right; by left|].
  rewrite lookup_insert_ne in H by done. by left.
Qed.

Lemma count_words_lookup (v : Counter) utts w :
  is_Some (count_words v utts !! w) →
  is_Some (v !! w) ∨ ∃ utt, utt ∈ utts ∧ w ∈ None :: (Some <$> split utt).
Proof.
  unfold count_words. revert v. induction utts as [|u utts IH]; intros v; [by left|].
  intros H. apply IH in H as [H|(utt & Hin & Hw)].
  - apply counter_update_lookup in H as [H|H]; [by left|].
    right. exists u. split; [by left | done].
  - right. exists utt. split; [by right | done].
Qed.

(** In particular the invariant holds for a fresh model trained on a corpus
    in which the out-of-vocabulary token does not occur as a word. *)
Lemma train_vocab_folding_fresh o f n utts :
  (∀ utt, utt ∈ utts → o ∉ split utt) →
  ∃ m', __train_vocab utts (BackoffLM_init o f n) = (Return (), m') ∧
        let v1 := count_words ∅ utts in
        let removed := oov_words f v1 in
        vocab m' !! Some o = Some (sumZ (counter_get v1 <$> removed)) ∧
        (∀ w, w ∈ removed → vocab m' !! w = None) ∧
        (∀ w c, w ≠ Some o → vocab m' !! w = Some c →
                (f ≤ c)%Z ∧ v1 !! w = Some c).
Proof.
  intros Hfresh. apply (train_vocab_folding utts (BackoffLM_init o f n)).
  simpl. intros (c & Hc & _)%elem_of_oov_words.
  destruct (count_words_lookup ∅ utts (Some o)) as [[? H]|(utt & Hin & Hw)]; [by eauto| |].
  - by rewrite lookup_empty in H.
  - apply elem_of_cons in Hw as [?|Hw]; [done|].
    apply list_elem_of_fmap in Hw as (s & [= <-] & Hs). by apply (Hfresh utt).
Qed.

(** C4.  The folding invariant breaks when the out-of-vocabulary token is
    itself a rare word of the corpus.  Here "__oov__" occurs once, below the
    minimum frequency 2: it is the one word of [oov_words], so the loop adds
    its (just reset) count 0 to itself and then deletes it.  The vocabulary
    that [__train_vocab] leaves, and that [train] keeps to its end, has no
    out-of-vocabulary token. *)
Theorem train_vocab_drops_oov :
  let m := BackoffLM_init OOV_TOKEN 2 3 in
  oov_words 2 (count_words ∅ ["a __oov__"; "a"]) = [Some OOV_TOKEN] ∧
  __train_vocab ["a __oov__"; "a"] m
    = (Return (), set_vocab (<[None := 2%Z]> {[Some "a" := 2%Z]}) m) ∧
  (<[None := 2%Z]> {[Some "a" := 2%Z]} : Counter) !! Some OOV_TOKEN = None ∧
  fst (train ["a __oov__"; "a"] m) = Return () ∧
  vocab (snd (train ["a __oov__"; "a"] m)) !! Some OOV_TOKEN = None.
Proof. vm_compute. done. Qed.

(** * Further properties of the model *)

(** ** Mapping to the vocabulary *)

(** X1.  [__to_vocab] is idempotent, on a word and on a tuple, and what it
    returns is a key of the vocabulary or the out-of-vocabulary token. *)
Theorem to_vocab_idempotent (m : BackoffLM) (w : token) (ws : context) :
  __to_vocab m (__to_vocab m w) = __to_vocab m w ∧
  __to_vocab_tuple m (__to_vocab_tuple m ws) = __to_vocab_tuple m ws ∧
  (in_vocab m (__to_vocab m w) = true ∨ __to_vocab m w = Some (oov m)).
Proof.
  assert (∀ w, __to_vocab m (__to_vocab m w) = __to_vocab m w) as Hid.
  { intros w'. unfold __to_vocab. destruct (in_vocab m w') eqn:E.
    - by rewrite E.
    - by destruct (in_vocab m (Some (oov m))). }
  split; [apply Hid|]. split.
  - unfold __to_vocab_tuple. rewrite <- list_fmap_compose.
    apply list_fmap_ext. intros i x _. apply Hid.
  - unfold __to_vocab. destruct (in_vocab m w) eqn:E; [left|right]; by rewrite ?E.
Qed.

(** ** Generating n-grams *)

Lemma windows_lengths {A} (k : nat) (l : list A) :
  Forall (λ g, length g = k) (windows k l).
Proof.
  induction l as [|x l IH]; simpl; [constructor|].
  destruct (decide (k ≤ S (length l))); constructor; [|done].
  rewrite length_take. simpl. lia.
Qed.

Lemma generate_ngrams_S text n :
  __generate_ngrams text (S n)
    = __generate_ngrams text n ++ nltk_ngrams (split text) (S n).
Proof.
  unfold __generate_ngrams. rewrite seq_S, fmap_app, join_app. simpl.
  by rewrite app_nil_r, Nat.add_1_r.
Qed.

(** X2.  [__generate_ngrams] on a text of [L] tokens and maximal order [n]
    yields [n * L + n * (n - 1) / 2] n-grams (the order [k] contributes
    [L + k - 1] of them, padding included), each of 1 to [n] tokens, and the
    n-grams of the orders below [n] come first, in the same sequence as for
    the maximal order [n - 1]. *)
Theorem generate_ngrams_count (text : string) (n : nat) :
  2 * length (__generate_ngrams text n)
    = 2 * n * length (split text) + n * (n - 1) ∧
  Forall (λ g, 1 ≤ length g ≤ n) (__generate_ngrams text n) ∧
  __generate_ngrams text (S n)
    = __generate_ngrams text n ++ nltk_ngrams (split text) (S n).
Proof.
  split; [|split; [|apply generate_ngrams_S]].
  - induction n as [|n IH]; [done|].
    rewrite generate_ngrams_S, length_app, length_nltk_ngrams by lia. nia.
  - induction n as [|n IH]; [constructor|].
    rewrite generate_ngrams_S. apply Forall_app. split.
    + eapply Forall_impl; [exact IH|]. simpl. lia.
    + unfold nltk_ngrams. eapply Forall_impl; [apply windows_lengths|].
      simpl. lia.
Qed.

(** ** Backing off *)

Lemma backoff_suffix t c : backoff t c `suffix_of` c.
Proof.
  induction c as [|x c IH]; simpl; [done|].
  destruct (backoff_cond t (x :: c)); [|done]. by apply suffix_cons_r.
Qed.

(** X3.  The loop of [prob] returns the longest suffix of the context that
    is a key of the table or has at most one token: the context is the
    result behind some prefix, every longer suffix is no key of the table,
    and the result is a key or has at most one token.  It is never shorter
    than one token unless the context is empty, so the empty context is
    never tried for a context that is not empty. *)
Theorem backoff_longest_known_suffix (t : gmap context dist) (c : context) :
  ∃ pre, c = pre ++ backoff t c ∧
         (∀ pre1 x pre2, pre = pre1 ++ x :: pre2 →
                         t !! (x :: pre2 ++ backoff t c) = None) ∧
         (is_Some (t !! backoff t c) ∨ length (backoff t c) ≤ 1) ∧
         Nat.min 1 (length c) ≤ length (backoff t c).
Proof.
  induction c as [|x c IH].
  - exists []. simpl. split; [done|]. split; [|split; [right; lia | lia]].
    intros pre1 y pre2 H. by destruct pre1.
  - change (backoff t (x :: c)) with
      (if backoff_cond t (x :: c) then backoff t c else x :: c).
    destruct (backoff_cond t (x :: c)) eqn:Hc.
    + destruct IH as (pre & Hpre & Hlong & Hkey & Hlen).
      unfold backoff_cond in Hc. apply andb_true_iff in Hc as [Hnone Hc].
      apply negb_true_iff, bool_decide_eq_false in Hnone.
      apply bool_decide_eq_true in Hc. simpl in Hc.
      exists (x :: pre). split; [by rewrite Hpre at 1|].
      split; [|split; [done|]].
      * intros pre1 y pre2 H. destruct pre1 as [|z pre1]; simpl in H.
        -- injection H as <- <-. rewrite <- Hpre.
           by apply eq_None_not_Some.
        -- injection H as _ H. by eapply Hlong.
      * destruct c; simpl in *; lia.
    + exists []. split; [done|]. split; [|split].
      * intros pre1 y pre2 H. by destruct pre1.
      * unfold backoff_cond in Hc. apply andb_false_iff in Hc as [Hc|Hc].
        -- left. by apply negb_false_iff, bool_decide_eq_true in Hc.
        -- right. apply bool_decide_eq_false in Hc. lia.
      * simpl. lia.
Qed.

(** X4.  One step of backing off: when the mapped context is no key of the
    table and has more than one token, [prob] gives what it gives for the
    context without its leftmost token (the same value or the same
    exception). *)
Theorem prob_backs_off (m : BackoffLM) (w x : token) (c : context) :
  table m !! __to_vocab_tuple m (x :: c) = None → c ≠ [] →
  prob w (x :: c) m = prob w c m.
Proof.
  intros Hnone Hc. unfold prob. unfold_monad.
  destruct (is_normalized m); simpl; [|done].
  change (__to_vocab_tuple m (x :: c))
    with (__to_vocab m x :: __to_vocab_tuple m c) in Hnone.
  assert (backoff_cond (table m) (__to_vocab m x :: __to_vocab_tuple m c) = true)
    as Hcond.
  { unfold backoff_cond. apply andb_true_iff. split.
    - apply negb_true_iff, bool_decide_eq_false. by rewrite Hnone; intros [? ?].
    - apply bool_decide_eq_true. unfold __to_vocab_tuple. simpl.
      rewrite length_fmap. destruct c; [done | simpl; lia]. }
  by rewrite Hcond.
Qed.

Lemma prob_backs_off_witness :
  prob (Some "sat") [Some "the"; Some "cat"] model_scenario
    = prob (Some "sat") [Some "cat"] model_scenario.
Proof.
  apply (prob_backs_off model_scenario (Some "sat") (Some "the") [Some "cat"]).
  - vm_compute. reflexivity.
  - discriminate.
Defined.

(** ** The run of [train] *)

Lemma count_table_set_table m t0 t grams :
  count_table (set_table t0 m) t grams = count_table m t grams.
Proof. done. Qed.

Lemma observe_loop_closed grams m :
  for_each grams (λ ngram, __observe (ngram_word ngram) (ngram_context ngram)) m
    = (Return (), set_table (count_table m (table m) grams) m).
Proof.
  revert m. induction grams as [|g grams IH]; intros m.
  - simpl. unfold_monad. by rewrite set_table_id.
  - simpl for_each. erewrite bind_return; [|apply observe_closed].
    rewrite IH. simpl. by rewrite set_table_id.
Qed.

Lemma counting_loop_closed utts m :
  for_each utts (λ utt,
    m ← get;
    for_each (__generate_ngrams utt (ngram_size m)) (λ ngram,
      __observe (ngram_word ngram) (ngram_context ngram))) m
  = (Return (),
     set_table (count_table m (table m) (corpus_ngrams utts (ngram_size m))) m).
Proof.
  revert m. induction utts as [|utt utts IH]; intros m.
  - simpl. unfold_monad. by rewrite set_table_id.
  - simpl for_each. erewrite bind_return.
    2:{ erewrite bind_return; [|done]. apply observe_loop_closed. }
    rewrite IH. simpl. unfold corpus_ngrams. simpl.
    unfold count_table. by rewrite foldl_app.
Qed.

Lemma count_table_pos m t grams : dists_pos t → dists_pos (count_table m t grams).
Proof.
  revert t. induction grams as [|g grams IH]; intros t Ht; [done|].
  apply IH. by apply (observed_pos (set_table t m)).
Qed.

(** [train] on a fresh object: the three phases in closed form. *)
Lemma train_fresh_unfold o f n utts :
  train utts (BackoffLM_init o f n) = __normalize (after_counting o f n utts).
Proof.
  unfold train. erewrite bind_return; [|done]. simpl.
  erewrite bind_return; [|apply train_vocab_closed].
  erewrite bind_return; [|apply counting_loop_closed]. done.
Qed.

Lemma after_counting_pos o f n utts : dists_pos (table (after_counting o f n utts)).
Proof. apply count_table_pos, dists_pos_empty. Qed.

Lemma after_counting_nonneg o f n utts : weights_nonneg (after_counting o f n utts).
Proof.
  intros ctx d Hd w c Hw.
  pose proof (after_counting_pos o f n utts ctx d w c Hd Hw). lra.
Qed.

(** What a trained model is made of. *)
Lemma trained_inv m :
  trained m →
  ∃ o f n utts,
    let m2 := after_counting o f n utts in
    train utts (BackoffLM_init o f n) = (Return (), m) ∧
    (size (vocab m2) ≠ 0 ∧
     m = set_is_normalized true (set_table (smoothed m2 <$> table m2) m2)
     ∨ table m2 = ∅ ∧ m = set_is_normalized true m2).
Proof.
  intros (o & f & n & utts & E). exists o, f, n, utts. simpl. split; [done|].
  rewrite train_fresh_unfold in E.
  destruct (decide (size (vocab (after_counting o f n utts)) = 0)) as [HV|HV].
  - right. exact (normalize_empty_vocab _ _ HV E).
  - left. split; [done|].
    rewrite normalize_smoothed in E; [|done|apply after_counting_nonneg].
    by injection E.
Qed.

(** X5.  A model is trained at most once: after a [train] that ran to its
    end, every further call of [train] is rejected and leaves the model as
    it is. *)
Theorem train_only_once (m : BackoffLM) (utts : list string) :
  trained m → train utts m = (Raise SystemExit, m).
Proof. intros [Hn _]%trained_ok. by apply train_after_normalize. Qed.

Lemma train_only_once_witness :
  train ["the dog ran"] model_scenario = (Raise SystemExit, model_scenario).
Proof.
  apply (train_only_once model_scenario ["the dog ran"]).
  exists OOV_TOKEN, 2%Z, 2, ["the cat sat"; "the cat ran"; "the dog sat"].
  vm_compute. reflexivity.
Defined.

(** X6.  On a trained model every word outside the vocabulary has the
    probability [1 / V], with [V] the number of vocabulary entries, in every
    context that the backoff loop ends on a key of the table: whatever the
    word, whatever the context, however often rare words were seen there. *)
Theorem prob_out_of_vocabulary (m : BackoffLM) (w : token) (c : context) :
  trained m → in_vocab m w = false →
  is_Some (table m !! backoff (table m) (__to_vocab_tuple m c)) →
  prob w c m = (Return (1 / inject_Z (Z.of_nat (size (vocab m))))%Q, m).
Proof.
  intros Ht Hw [d Hd]. pose proof (trained_ok m Ht) as (Hn & _ & _).
  rewrite (prob_known_context w c m d Hn Hd).
  unfold __to_vocab. rewrite Hw.
  destruct (trained_inv m Ht) as (o & f & n & utts & _ & [[HV ->]|[Hempty ->]]).
  - simpl in *. rewrite lookup_fmap in Hd.
    destruct (_ !! _) as [d0|] eqn:E0 in Hd; [|done]. injection Hd as <-.
    unfold smoothed. by rewrite lookup_insert_eq.
  - simpl in *. by rewrite Hempty, lookup_empty in Hd.
Qed.

Lemma prob_out_of_vocabulary_witness :
  prob (Some "zzz") [Some "the"] model_scenario
    = (Return (1 / inject_Z (Z.of_nat (size (vocab model_scenario))))%Q,
       model_scenario).
Proof.
  apply (prob_out_of_vocabulary model_scenario (Some "zzz") [Some "the"]).
  - exists OOV_TOKEN, 2%Z, 2, ["the cat sat"; "the cat ran"; "the dog sat"].
    vm_compute. reflexivity.
  - vm_compute. reflexivity.
  - vm_compute. eauto.
Defined.

(** X7.  [train] runs to its end whenever the out-of-vocabulary token is not
    a word of the corpus (the empty corpus included): it raises nothing,
    marks the model normalized and leaves the out-of-vocabulary token in the
    vocabulary, which is the one the vocabulary phase built. *)
Theorem train_runs_when_oov_fresh (o : string) (f : Z) (n : nat) (utts : list string) :
  Forall (λ utt, o ∉ split utt) utts →
  ∃ m, train utts (BackoffLM_init o f n) = (Return (), m) ∧
       is_normalized m = true ∧
       is_Some (vocab m !! Some o) ∧
       vocab m = fold_rare (Some o) f (count_words ∅ utts).
Proof.
  intros Hfresh. rewrite Forall_forall in Hfresh.
  destruct (train_vocab_folding_fresh o f n utts Hfresh) as (m1 & E1 & Ho & _).
  rewrite train_vocab_closed in E1. injection E1 as <-. simpl in Ho.
  rewrite train_fresh_unfold.
  assert (size (vocab (after_counting o f n utts)) ≠ 0) as HV.
  { simpl. intros H0%map_size_empty_inv. by rewrite H0, lookup_empty in Ho. }
  rewrite normalize_smoothed; [|done|apply after_counting_nonneg].
  eexists. split; [done|]. simpl. split; [done|]. split; [|done]. eauto.
Qed.

Lemma train_runs_when_oov_fresh_witness :
  ∃ m, train ["the cat sat"; "the cat ran"] (BackoffLM_init OOV_TOKEN 2 3)
         = (Return (), m) ∧
       is_normalized m = true ∧
       is_Some (vocab m !! Some OOV_TOKEN) ∧
       vocab m = fold_rare (Some OOV_TOKEN) 2
                   (count_words ∅ ["the cat sat"; "the cat ran"]).
Proof.
  apply (train_runs_when_oov_fresh OOV_TOKEN 2 3 ["the cat sat"; "the cat ran"]).
  apply (bool_decide_unpack _). vm_compute. exact I.
Defined.

(** ** The total count of the vocabulary *)

Lemma sumZ_perm (l l' : list Z) : l ≡ₚ l' → sumZ l = sumZ l'.
Proof.
  induction 1 as [|x l l' _ IH|x y l|l1 l2 l3 _ IH1 _ IH2].
  - done.
  - by rewrite !sumZ_cons, IH.
  - rewrite !sumZ_cons. lia.
  - by rewrite IH1.
Qed.

Lemma sumZ_values_insert_fresh (v : Counter) k x :
  v !! k = None → sumZ (values (<[k := x]> v)) = (sumZ (values v) + x)%Z.
Proof.
  intros Hk. unfold values.
  rewrite (sumZ_perm _ (x :: (map_to_list v).*2)).
  - rewrite sumZ_cons. lia.
  - rewrite map_to_list_insert by done. done.
Qed.

Lemma sumZ_values_delete (v : Counter) k :
  sumZ (values (delete k v)) = (sumZ (values v) - counter_get v k)%Z.
Proof.
  unfold counter_get. destruct (v !! k) as [c|] eqn:Hk; simpl.
  - rewrite <- (insert_id v k c Hk) at 2. rewrite <- insert_delete_eq.
    rewrite sumZ_values_insert_fresh by apply lookup_delete_eq. lia.
  - rewrite delete_id by done. lia.
Qed.

Lemma sumZ_values_insert (v : Counter) k x :
  sumZ (values (<[k := x]> v)) = (sumZ (values v) - counter_get v k + x)%Z.
Proof.
  rewrite <- insert_delete_eq.
  rewrite sumZ_values_insert_fresh by apply lookup_delete_eq.
  by rewrite sumZ_values_delete.
Qed.

Lemma sumZ_counter_update (v : Counter) ws :
  sumZ (values (counter_update v ws)) = (sumZ (values v) + Z.of_nat (length ws))%Z.
Proof.
  unfold counter_update. revert v. induction ws as [|w ws IH]; intros v.
  - simpl. lia.
  - simpl foldl. rewrite IH, sumZ_values_insert. simpl length. lia.
Qed.

Lemma count_words_cons (v : Counter) utt utts :
  count_words v (utt :: utts)
    = count_words (counter_update v (None :: (Some <$> split utt))) utts.
Proof. done. Qed.

Lemma corpus_tokens_cons utt utts :
  corpus_tokens (utt :: utts) = S (length (split utt)) + corpus_tokens utts.
Proof. done. Qed.

Lemma sumZ_count_words (v : Counter) utts :
  sumZ (values (count_words v utts))
    = (sumZ (values v) + Z.of_nat (corpus_tokens utts))%Z.
Proof.
  revert v. induction utts as [|utt utts IH]; intros v.
  - unfold count_words, corpus_tokens. simpl. lia.
  - rewrite count_words_cons, corpus_tokens_cons, IH, sumZ_counter_update.
    rewrite length_cons, length_fmap. lia.
Qed.

Lemma sumZ_fold_oov (o : token) (v : Counter) (w : token) :
  w ≠ o → sumZ (values (fold_oov o v w)) = sumZ (values v).
Proof.
  intros Hne. unfold fold_oov. rewrite sumZ_values_delete, sumZ_values_insert.
  set (a := (counter_get v o + counter_get v w)%Z).
  assert (counter_get (<[o := a]> v) w = counter_get v w) as ->.
  { unfold counter_get. by rewrite lookup_insert_ne. }
  lia.
Qed.

Lemma sumZ_foldl_fold_oov (o : token) (ws : list token) (v : Counter) :
  o ∉ ws → sumZ (values (foldl (fold_oov o) v ws)) = sumZ (values v).
Proof.
  revert v. induction ws as [|w ws IH]; intros v Ho; [done|].
  apply not_elem_of_cons in Ho as [Hne Ho]. simpl.
  rewrite IH by done. apply sumZ_fold_oov. by intros ->.
Qed.

Lemma fresh_oov_not_counted o utts :
  Forall (λ utt, o ∉ split utt) utts → count_words ∅ utts !! Some o = None.
Proof.
  intros Hfresh. rewrite Forall_forall in Hfresh.
  apply eq_None_not_Some. intros H.
  apply count_words_lookup in H as [[? H]|(utt & Hin & Hw)].
  - by rewrite lookup_empty in H.
  - apply elem_of_cons in Hw as [?|Hw]; [done|].
    apply list_elem_of_fmap in Hw as (s & [= <-] & Hs). by apply (Hfresh utt).
Qed.

(** X8.  Folding conserves the counts: when the out-of-vocabulary token is
    not a word of the corpus, the counts of the vocabulary that
    [__train_vocab] builds on a fresh model add up to the number of tokens of
    the corpus plus one boundary token per utterance; what was taken from the
    removed words is all in the count of the out-of-vocabulary token. *)
Theorem train_vocab_conserves_counts (o : string) (f : Z) (n : nat)
  (utts : list string) :
  Forall (λ utt, o ∉ split utt) utts →
  ∃ m, __train_vocab utts (BackoffLM_init o f n) = (Return (), m) ∧
       sumZ (values (vocab m)) = Z.of_nat (corpus_tokens utts).
Proof.
  intros Hfresh. eexists. split; [apply train_vocab_closed|]. simpl.
  pose proof (fresh_oov_not_counted o utts Hfresh) as Hnone.
  unfold fold_rare. rewrite sumZ_foldl_fold_oov.
  - rewrite sumZ_values_insert_fresh by done.
    rewrite sumZ_count_words. unfold values. rewrite map_to_list_empty.
    unfold sumZ. simpl. lia.
  - intros (c & Hc & _)%elem_of_oov_words. by rewrite Hnone in Hc.
Qed.

Lemma train_vocab_conserves_counts_witness :
  ∃ m, __train_vocab ["the cat sat"; "the cat ran"] (BackoffLM_init OOV_TOKEN 2 3)
         = (Return (), m) ∧
       sumZ (values (vocab m))
         = Z.of_nat (corpus_tokens ["the cat sat"; "the cat ran"]).
Proof.
  apply (train_vocab_conserves_counts OOV_TOKEN 2 3 ["the cat sat"; "the cat ran"]).
  apply (bool_decide_unpack _). vm_compute. exact I.
Defined.

(** ** What the counting loop counts *)

Lemma foldl_Qplus_acc (l : list Q) (acc : Q) :
  (foldl Qplus acc l == acc + foldl Qplus 0 l)%Q.
Proof.
  revert acc. induction l as [|x l IH]; intros acc; simpl.
  - lra.
  - rewrite (IH (acc + x)%Q), (IH (0 + x)%Q). lra.
Qed.

Lemma sumQ_cons (x : Q) l : (sumQ (x :: l) == x + sumQ l)%Q.
Proof. unfold sumQ. simpl. rewrite foldl_Qplus_acc. lra. Qed.

Lemma sumQ_perm (l l' : list Q) : l ≡ₚ l' → (sumQ l == sumQ l')%Q.
Proof.
  induction 1 as [|x l l' _ IH|x y l|l1 l2 l3 _ IH1 _ IH2].
  - reflexivity.
  - by rewrite !sumQ_cons, IH.
  - rewrite !sumQ_cons. lra.
  - by rewrite IH1.
Qed.

Lemma sumQ_values_insert_fresh (d : dist) k x :
  d !! k = None → (sumQ (values (<[k := x]> d)) == sumQ (values d) + x)%Q.
Proof.
  intros Hk. unfold values.
  rewrite (sumQ_perm _ (x :: (map_to_list d).*2)).
  - rewrite sumQ_cons. lra.
  - rewrite map_to_list_insert by done. done.
Qed.

Lemma sumQ_values_insert (d : dist) k c x :
  d !! k = Some c →
  (sumQ (values (<[k := x]> d)) == sumQ (values d) - c + x)%Q.
Proof.
  intros Hk. rewrite <- (insert_id d k c Hk) at 2.
  rewrite <- !(insert_delete_eq d).
  rewrite !sumQ_values_insert_fresh by apply lookup_delete_eq. lra.
Qed.

Lemma ngram_count_le m grams ctx w :
  ngram_count m grams ctx w ≤ context_count m grams ctx.
Proof.
  unfold ngram_count, context_count.
  induction grams as [|g grams IH]; [done|].
  rewrite !filter_cons.
  destruct (decide (__to_vocab_tuple m (ngram_context g) = ctx)) as [Hc|Hc].
  - destruct (decide (_ ∧ _)); simpl; lia.
  - rewrite decide_False by (by intros [? ?]). done.
Qed.

Lemma context_count_snoc m grams g ctx :
  context_count m (grams ++ [g]) ctx
    = context_count m grams ctx
      + (if decide (__to_vocab_tuple m (ngram_context g) = ctx) then 1 else 0).
Proof.
  unfold context_count. rewrite filter_app, length_app, filter_cons, filter_nil.
  by destruct (decide _).
Qed.

Lemma ngram_count_snoc m grams g ctx w :
  ngram_count m (grams ++ [g]) ctx w
    = ngram_count m grams ctx w
      + (if decide (__to_vocab_tuple m (ngram_context g) = ctx
                    ∧ __to_vocab m (ngram_word g) = w) then 1 else 0).
Proof.
  unfold ngram_count. rewrite filter_app, length_app, filter_cons, filter_nil.
  by destruct (decide _).
Qed.

Lemma count_table_snoc m t grams g :
  count_table m t (grams ++ [g])
    = observed (set_table (count_table m t grams) m)
        (ngram_word g) (ngram_context g).
Proof. unfold count_table. by rewrite foldl_app. Qed.

Lemma inject_Z_succ (k : nat) :
  (inject_Z (Z.of_nat (k + 1)) == inject_Z (Z.of_nat k) + 1)%Q.
Proof.
  rewrite Nat2Z.inj_add, inject_Z_plus. reflexivity.
Qed.

Lemma count_table_counts m grams : counts_grams m grams (count_table m ∅ grams).
Proof.
  induction grams as [|g grams IH] using rev_ind.
  - intros ctx. simpl. by rewrite lookup_empty.
  - intros ctx. rewrite count_table_snoc. unfold observed. cbv zeta.
    change (table (set_table ?t m)) with t.
    change (__to_vocab_tuple (set_table ?t m)) with (__to_vocab_tuple m).
    change (__to_vocab (set_table ?t m)) with (__to_vocab m).
    set (T := count_table m ∅ grams) in *.
    set (c' := __to_vocab_tuple m (ngram_context g)).
    set (w' := __to_vocab m (ngram_word g)).
    rewrite context_count_snoc. fold c'.
    destruct (decide (c' = ctx)) as [<-|Hne].
    + rewrite lookup_insert_eq. specialize (IH c').
      split; [lia|].
      assert (∀ w, w ≠ w' →
        ngram_count m (grams ++ [g]) c' w = ngram_count m grams c' w) as Hother.
      { intros w Hw. rewrite ngram_count_snoc. fold c' w'.
        rewrite decide_False; [lia|]. intros [_ ?]. by apply Hw. }
      assert (ngram_count m (grams ++ [g]) c' w' = ngram_count m grams c' w' + 1)
        as Hsame.
      { rewrite ngram_count_snoc. fold c' w'. by rewrite decide_True. }
      destruct (T !! c') as [d0|] eqn:Ed0; simpl.
      * destruct IH as (Hpos & Hsum & Hcells). split.
        -- pose proof (Hcells w') as Hw'.
           destruct (d0 !! w') as [q0|] eqn:Eq0; simpl.
           ++ rewrite (sumQ_values_insert d0 w' q0) by done.
              rewrite inject_Z_succ, Hsum. lra.
           ++ rewrite sumQ_values_insert_fresh by done.
              rewrite inject_Z_succ, Hsum. lra.
        -- intros w. destruct (decide (w = w')) as [->|Hw].
           ++ rewrite lookup_insert_eq, Hsame. split; [lia|].
              pose proof (Hcells w') as Hw'.
              destruct (d0 !! w') as [q0|] eqn:Eq0; simpl.
              ** destruct Hw' as [_ Hq0]. by rewrite inject_Z_succ, Hq0.
              ** by rewrite Hw'.
           ++ rewrite lookup_insert_ne, Hother by done. apply Hcells.
      * split.
        -- rewrite lookup_empty. simpl.
           rewrite sumQ_values_insert_fresh by apply lookup_empty.
           rewrite IH. unfold values. rewrite map_to_list_empty.
           reflexivity.
        -- pose proof (ngram_count_le m grams c') as Hle.
           intros w. destruct (decide (w = w')) as [->|Hw].
           ++ rewrite lookup_insert_eq, Hsame, lookup_empty. simpl.
              specialize (Hle w'). split; [lia|].
              replace (ngram_count m grams c' w') with 0 by lia. reflexivity.
           ++ rewrite lookup_insert_ne, Hother, lookup_empty by done.
              specialize (Hle w). lia.
    + rewrite lookup_insert_ne by done. rewrite Nat.add_0_r.
      specialize (IH ctx). destruct (T !! ctx) as [d|]; [|done].
      destruct IH as (Hpos & Hsum & Hcells). split; [done|]. split; [done|].
      intros w. rewrite ngram_count_snoc. fold c' w'.
      rewrite decide_False by (by intros [? _]). rewrite Nat.add_0_r.
      apply Hcells.
Qed.

Lemma context_count_config b t m grams ctx :
  context_count (set_is_normalized b (set_table t m)) grams ctx
    = context_count m grams ctx.
Proof. done. Qed.

Lemma ngram_count_config b t m grams ctx w :
  ngram_count (set_is_normalized b (set_table t m)) grams ctx w
    = ngram_count m grams ctx w.
Proof. done. Qed.

(** X9.  What [train] estimates.  For a fresh model on which [train] runs to
    its end, the contexts of the table are exactly the mapped contexts of the
    n-grams of the corpus (all orders up to the configured one); for such a
    context, with [N] the number of n-grams that have it and [V] the number
    of vocabulary entries, the out-of-vocabulary token has the weight
    [1 / V], and any other token is recorded exactly when some n-gram has it
    as the word after that context, with the weight [(c + 1) / (N + V)]
    where [c] is the number of those n-grams. *)
Theorem train_estimates (o : string) (f : Z) (n : nat) (utts : list string)
  (m : BackoffLM) (ctx : context) :
  train utts (BackoffLM_init o f n) = (Return (), m) →
  match table m !! ctx with
  | None => context_count m (corpus_ngrams utts n) ctx = 0
  | Some d =>
      0 < context_count m (corpus_ngrams utts n) ctx ∧
      d !! Some (oov m) = Some (1 / inject_Z (Z.of_nat (size (vocab m))))%Q ∧
      ∀ w, w ≠ Some (oov m) →
        match d !! w with
        | None => ngram_count m (corpus_ngrams utts n) ctx w = 0
        | Some p =>
            0 < ngram_count m (corpus_ngrams utts n) ctx w ∧
            (p == (inject_Z (Z.of_nat (ngram_count m (corpus_ngrams utts n) ctx w)) + 1)
                  / (inject_Z (Z.of_nat (context_count m (corpus_ngrams utts n) ctx))
                     + inject_Z (Z.of_nat (size (vocab m)))))%Q
        end
  end.
Proof.
  intros E. rewrite train_fresh_unfold in E.
  set (m1 := after_train_vocab o f n utts).
  pose proof (count_table_counts m1 (corpus_ngrams utts n) ctx) as Hc.
  destruct (decide (size (vocab (after_counting o f n utts)) = 0)) as [HV|HV].
  - apply normalize_empty_vocab in E as [Hempty ->]; [|done].
    unfold after_counting in *. fold m1 in Hempty |- *.
    rewrite context_count_config.
    change (table (set_is_normalized true (set_table ?t m1))) with t.
    simpl in Hempty. rewrite Hempty in *. by rewrite lookup_empty in *.
  - rewrite normalize_smoothed in E; [|done|apply after_counting_nonneg].
    injection E as <-. unfold after_counting in *. fold m1 in HV |- *.
    rewrite context_count_config.
    change (table (set_is_normalized true (set_table ?t ?m0))) with t.
    change (table (set_table ?t m1)) with t.
    change (oov (set_is_normalized true (set_table ?t ?m0))) with o.
    change (vocab (set_is_normalized true (set_table ?t ?m0))) with (vocab m1).
    rewrite lookup_fmap.
    destruct (count_table m1 ∅ (corpus_ngrams utts n) !! ctx) as [d|]; simpl;
      [|done].
    destruct Hc as (Hpos & Hsum & Hcells). split; [done|].
    unfold smoothed. split; [by rewrite lookup_insert_eq|].
    intros w Hw. rewrite lookup_insert_ne, lookup_fmap by done.
    specialize (Hcells w). destruct (d !! w) as [q|]; simpl; [|done].
    destruct Hcells as [Hposw Hq]. split; [done|].
    unfold vocab_size. simpl vocab. by rewrite Hq, Hsum.
Qed.

Lemma train_estimates_witness :
  match table model_scenario !! [Some "the"] with
  | None =>
      context_count model_scenario
        (corpus_ngrams ["the cat sat"; "the cat ran"; "the dog sat"] 2)
        [Some "the"] = 0
  | Some d =>
      0 < context_count model_scenario
            (corpus_ngrams ["the cat sat"; "the cat ran"; "the dog sat"] 2)
            [Some "the"] ∧
      d !! Some (oov model_scenario)
        = Some (1 / inject_Z (Z.of_nat (size (vocab model_scenario))))%Q ∧
      ∀ w, w ≠ Some (oov model_scenario) →
        match d !! w with
        | None =>
            ngram_count model_scenario
              (corpus_ngrams ["the cat sat"; "the cat ran"; "the dog sat"] 2)
              [Some "the"] w = 0
        | Some p =>
            0 < ngram_count model_scenario
                  (corpus_ngrams ["the cat sat"; "the cat ran"; "the dog sat"] 2)
                  [Some "the"] w ∧
            (p == (inject_Z (Z.of_nat (ngram_count model_scenario
                     (corpus_ngrams ["the cat sat"; "the cat ran"; "the dog sat"] 2)
                     [Some "the"] w)) + 1)
                  / (inject_Z (Z.of_nat (context_count model_scenario
                       (corpus_ngrams ["the cat sat"; "the cat ran"; "the dog sat"] 2)
                       [Some "the"]))
                     + inject_Z (Z.of_nat (size (vocab model_scenario)))))%Q
        end
  end.
Proof.
  apply (train_estimates OOV_TOKEN 2 2
           ["the cat sat"; "the cat ran"; "the dog sat"] model_scenario
           [Some "the"]).
  vm_compute. reflexivity.
Defined.

(** ** Batches on a trained model *)






(** * Utilities *)

(** ** Memoization *)

Section memoize_proofs.
Context {A : Type} `{Countable K} {E V : Type}.
Context (key : A → K) (func : A → E + V).

Lemma first_value_cons a pre k :
  first_value key func (a :: pre) k
    = match (if decide (key a = k) then cached func a else None) with
      | Some v => Some v
      | None => first_value key func pre k
      end.
Proof.
  unfold first_value. cbn [omap list_omap].
  by destruct (if decide (key a = k) then cached func a else None).
Qed.

Lemma first_value_snoc pre a k :
  first_value key func (pre ++ [a]) k
    = match first_value key func pre k with
      | Some v => Some v
      | None => if decide (key a = k) then cached func a else None
      end.
Proof.
  induction pre as [|b pre IH].
  - change ([] ++ [a]) with [a]. rewrite first_value_cons.
    by destruct (if decide (key a = k) then cached func a else None).
  - change ((b :: pre) ++ [a]) with (b :: (pre ++ [a])).
    rewrite !first_value_cons, IH.
    by destruct (if decide (key b = k) then cached func b else None).
Qed.

Lemma first_value_None pre k a :
  first_value key func pre k = None → a ∈ pre → key a = k →
  cached func a = None.
Proof.
  induction pre as [|b pre IH]; intros Hf Hin Hk.
  - by apply elem_of_nil in Hin.
  - rewrite first_value_cons in Hf.
    destruct (if decide (key b = k) then cached func b else None) eqn:Hb;
      [done|].
    apply elem_of_cons in Hin as [->|Hin]; [|by apply IH].
    by rewrite decide_True in Hb.
Qed.

Lemma first_value_Some pre k v :
  first_value key func pre k = Some v →
  ∃ a, a ∈ pre ∧ key a = k ∧ func a = inr v.
Proof.
  induction pre as [|b pre IH]; intros Hf; [done|].
  rewrite first_value_cons in Hf.
  destruct (decide (key b = k)) as [Hk|Hk].
  - unfold cached in Hf. destruct (func b) as [e|v'] eqn:Hb.
    + destruct (IH Hf) as (a & Hin & Ha). exists a. split; [by right | done].
    + injection Hf as <-. exists b. split; [by left | done].
  - destruct (IH Hf) as (a & Hin & Ha). exists a. split; [by right | done].
Qed.

Lemma expected_respects pre args :
  (∀ a b, key a = key b → func a = func b) →
  expected key func pre args = func args.
Proof.
  intros Hresp. unfold expected.
  destruct (first_value key func pre (key args)) as [v|] eqn:Hf; [|done].
  apply first_value_Some in Hf as (a & _ & Hk & <-). symmetry. by apply Hresp.
Qed.

Lemma memo_inv_memoize : memo_inv key func [] (memoize (A := A)).
Proof.
  split; [|split].
  - intros k. unfold memoize. simpl. by rewrite lookup_empty.
  - intros a Ha. by apply elem_of_nil in Ha.
  - constructor.
Qed.

(** One call: what it returns, and the state it leaves. *)
Lemma inner_step pre args (s : @memo A K _ _ V) :
  memo_inv key func pre s →
  (inner key func args s).1 = expected key func pre args ∧
  memo_inv key func (pre ++ [args]) (inner key func args s).2.
Proof.
  intros (Hout & Hcalls & Hnd). unfold inner, expected. rewrite Hout.
  destruct (first_value key func pre (key args)) as [v|] eqn:Hf.
  - split; [done|]. cbn [snd]. split; [|split; [|done]].
    + intros k. rewrite first_value_snoc, Hout.
      destruct (first_value key func pre k) eqn:Hk; [done|].
      rewrite decide_False; [done|]. intros <-. congruence.
    + intros a Ha. apply elem_of_app. left. by apply Hcalls.
  - destruct (func args) as [e|v] eqn:Hfunc; (split; [done|]); cbn [snd].
    + split; [|split].
      * intros k. cbn [outputs]. rewrite first_value_snoc, Hout.
        destruct (first_value key func pre k); [done|].
        unfold cached. rewrite Hfunc. by destruct (decide _).
      * intros a. cbn [func_calls].
        intros [Ha|Ha]%elem_of_app; apply elem_of_app; [left; by apply Hcalls|by right].
      * cbn [func_calls]. rewrite filter_app, filter_cons_False, filter_nil, app_nil_r.
        -- done.
        -- unfold cached. rewrite Hfunc. by intros [? ?].
    + split; [|split].
      * intros k. cbn [outputs]. rewrite first_value_snoc.
        destruct (decide (key args = k)) as [<-|Hne].
        -- rewrite lookup_insert_eq, Hf. unfold cached. by rewrite Hfunc.
        -- rewrite lookup_insert_ne by done. rewrite Hout.
           by destruct (first_value key func pre k).
      * intros a. cbn [func_calls].
        intros [Ha|Ha]%elem_of_app; apply elem_of_app; [left; by apply Hcalls|by right].
      * cbn [func_calls]. rewrite filter_app, fmap_app. apply NoDup_app.
        split; [done|]. split.
        -- intros k (a & -> & [Hs Ha]%list_elem_of_filter)%list_elem_of_fmap Hin.
           rewrite filter_cons_True in Hin
             by (unfold cached; rewrite Hfunc; eauto).
           apply list_elem_of_singleton in Hin.
           rewrite (first_value_None pre (key args) a) in Hs;
             [by destruct Hs | done | by apply Hcalls | done].
        -- rewrite filter_cons_True by (unfold cached; rewrite Hfunc; eauto).
           apply NoDup_singleton.
Qed.

Lemma inner_calls_cons args argss (s : @memo A K _ _ V) :
  (inner_calls key func (args :: argss) s).1
    = (inner key func args s).1
      :: (inner_calls key func argss (inner key func args s).2).1 ∧
  (inner_calls key func (args :: argss) s).2
    = (inner_calls key func argss (inner key func args s).2).2.
Proof.
  simpl. destruct (inner key func args s) as [r s']. simpl.
  destruct (inner_calls key func argss s') as [rs s'']. split; reflexivity.
Qed.

(** A sequence of calls, from the state that the calls [pre] left. *)
Lemma inner_calls_spec argss pre (s : @memo A K _ _ V) :
  memo_inv key func pre s →
  length (inner_calls key func argss s).1 = length argss ∧
  (∀ i args, argss !! i = Some args →
     (inner_calls key func argss s).1 !! i
       = Some (expected key func (pre ++ take i argss) args)) ∧
  memo_inv key func (pre ++ argss) (inner_calls key func argss s).2.
Proof.
  revert pre s. induction argss as [|a argss IH]; intros pre s Hs.
  - split; [done|]. split; [done|]. by rewrite app_nil_r.
  - destruct (inner_calls_cons a argss s) as [-> ->].
    destruct (inner_step pre a s Hs) as [Hr Hs'].
    destruct (IH _ _ Hs') as (Hlen & Hres & Hfin).
    split; [|split].
    + cbn [length]. by rewrite Hlen.
    + intros [|i] args Hi.
      * injection Hi as <-. cbn [take]. rewrite app_nil_r. simpl. by rewrite Hr.
      * cbn [take]. change (pre ++ a :: take i argss)
          with (pre ++ [a] ++ take i argss). rewrite app_assoc.
        by apply Hres.
    + change (pre ++ a :: argss) with (pre ++ [a] ++ argss).
      by rewrite app_assoc.
Qed.

(** X11.  The memoized closure, on any sequence of calls: a call returns
    the value that [func] returned at the first earlier call with equal
    arguments (the same dictionary key) on which it returned a value, and
    does what [func] does on its own arguments (value or exception) when
    there is none; so the closure returns what [func] returns, call by call,
    whenever [func] does not tell equal arguments apart.  Afterwards
    [outputs] holds for every key that first value; [func] was only called
    on arguments of the sequence, and at most once with a value for any one
    key. *)
Theorem memoize_returns_first_cached (argss : list A) :
  length (inner_calls key func argss memoize).1 = length argss ∧
  (∀ i args, argss !! i = Some args →
     (inner_calls key func argss memoize).1 !! i
       = Some (expected key func (take i argss) args)) ∧
  ((∀ a b, key a = key b → func a = func b) →
     (inner_calls key func argss memoize).1 = func <$> argss) ∧
  (∀ k, outputs (inner_calls key func argss memoize).2 !! k
        = first_value key func argss k) ∧
  (∀ a, a ∈ func_calls (inner_calls key func argss memoize).2 → a ∈ argss) ∧
  NoDup (key <$> filter (λ a, is_Some (cached func a))
                   (func_calls (inner_calls key func argss memoize).2)).
Proof.
  destruct (inner_calls_spec argss [] memoize memo_inv_memoize)
    as (Hlen & Hres & Hout & Hcalls & Hnd).
  split; [done|]. split; [exact Hres|]. split; [|done].
  intros Hresp. apply list_eq. intros i. rewrite list_lookup_fmap.
  destruct (argss !! i) as [a|] eqn:Ha.
  - rewrite (Hres i a Ha). simpl. f_equal. by apply expected_respects.
  - simpl. apply lookup_ge_None. rewrite Hlen. by apply lookup_ge_None.
Qed.
End memoize_proofs.

(** After a call on the integer 1, a call on [True] gets the value cached
    for 1, whatever the function does on [True]. *)
Lemma memoize_int_then_bool {E V} (h : py_arg → E + V) (v : V) :
  h (PyInt 1) = inr v →
  (inner_calls py_key h [PyInt 1; PyBool true] memoize).1 = [inr v; inr v].
Proof.
  intros Hv. cbn [inner_calls]. unfold inner at 1. cbn [memoize outputs py_key].
  rewrite lookup_empty, Hv. unfold inner. cbn [outputs py_key].
  by rewrite lookup_insert_eq.
Qed.

(** ** Merging dictionaries *)

Lemma merge_dictionaries_snoc `{Countable K} {V} (ds : list (gmap K V)) d :
  merge_dictionaries (ds ++ [d]) = d ∪ merge_dictionaries ds.
Proof. unfold merge_dictionaries. by rewrite foldl_app. Qed.

(** X12.  [merge_dictionaries]: merging a list that is two lists appended
    is the merge of the second list laid over the merge of the first, so for
    every key the last dictionary that has it wins; a key is missing from the
    result exactly when it is missing from every dictionary; one dictionary
    merges to itself and no dictionary to the empty one. *)
Theorem merge_dictionaries_last_wins `{Countable K} {V}
  (ds1 ds2 : list (gmap K V)) (d : gmap K V) (k : K) :
  merge_dictionaries (ds1 ++ ds2)
    = merge_dictionaries ds2 ∪ merge_dictionaries ds1 ∧
  (merge_dictionaries ds1 !! k = None ↔ Forall (λ d, d !! k = None) ds1) ∧
  merge_dictionaries [d] = d ∧
  merge_dictionaries ([] : list (gmap K V)) = ∅.
Proof.
  split; [|split; [|split]].
  - induction ds2 as [|d2 ds2 IH] using rev_ind.
    + rewrite app_nil_r. unfold merge_dictionaries at 2. simpl.
      by rewrite (left_id_L ∅ (∪)).
    + rewrite app_assoc, !merge_dictionaries_snoc, IH.
      by rewrite (assoc_L (∪)).
  - induction ds1 as [|d1 ds1 IH] using rev_ind.
    + unfold merge_dictionaries. simpl. rewrite lookup_empty. split; [|done].
      intros _. constructor.
    + rewrite merge_dictionaries_snoc, lookup_union_None, Forall_app, IH.
      rewrite Forall_singleton. tauto.
  - unfold merge_dictionaries. simpl. by rewrite (right_id_L ∅ (∪)).
  - done.
Qed.

(** ** Collecting the scores *)

Lemma get_scores_items {S} (items : list (string * S))
  (scores : gmap string (list S)) (scale : string) :
  NoDup items.*1 →
  (∀ s, (scale, s) ∈ items →
     foldl (λ scores item,
       <[item.1 := default [] (scores !! item.1) ++ [item.2]]> scores)
       scores items !! scale
     = Some (default [] (scores !! scale) ++ [s])) ∧
  (scale ∉ items.*1 →
     foldl (λ scores item,
       <[item.1 := default [] (scores !! item.1) ++ [item.2]]> scores)
       scores items !! scale
     = scores !! scale).
Proof.
  revert scores. induction items as [|[k s0] items IH]; intros scores Hnd.
  - split; [|done]. intros s Hin. by apply elem_of_nil in Hin.
  - apply NoDup_cons in Hnd as [Hk Hnd].
    set (scores' := <[k := default [] (scores !! k) ++ [s0]]> scores).
    change (foldl ?f scores ((k, s0) :: items)) with (foldl f scores' items).
    destruct (IH scores' Hnd) as [IH1 IH2]. split.
    + intros s [[= <- <-]|Hin]%elem_of_cons.
      * rewrite IH2 by done. unfold scores'. by rewrite lookup_insert_eq.
      * rewrite (IH1 s Hin). unfold scores'.
        rewrite lookup_insert_ne; [done|]. intros ->. apply Hk.
        apply list_elem_of_fmap. by exists (scale, s).
    + intros Hnot. apply not_elem_of_cons in Hnot as [Hne Hnot].
      rewrite IH2 by done. unfold scores'. by rewrite lookup_insert_ne.
Qed.

Lemma get_scores_transcript {S} (transcript : gmap string S)
  (scores : gmap string (list S)) (scale : string) :
  foldl (λ scores item,
    <[item.1 := default [] (scores !! item.1) ++ [item.2]]> scores)
    scores (map_to_list transcript) !! scale
  = match transcript !! scale with
    | Some s => Some (default [] (scores !! scale) ++ [s])
    | None => scores !! scale
    end.
Proof.
  destruct (get_scores_items (map_to_list transcript) scores scale
              (NoDup_fst_map_to_list transcript)) as [H1 H2].
  destruct (transcript !! scale) as [s|] eqn:Es.
  - apply H1. by apply elem_of_map_to_list.
  - apply H2. intros ([k s] & -> & Hin)%list_elem_of_fmap.
    apply elem_of_map_to_list in Hin. simpl in *. congruence.
Qed.

(** X13.  [get_scores] gives every scale the list of its scores, in the
    order of the transcripts; a transcript without a score for the scale is
    passed over (so the lists of two scales can differ in length), and a
    scale that no transcript has is no key of the result. *)
Theorem get_scores_lookup {S} (transcripts : list (gmap string S))
  (scale : string) :
  get_scores transcripts !! scale
    = match omap (λ transcript, transcript !! scale) transcripts with
      | [] => None
      | l => Some l
      end.
Proof.
  unfold get_scores.
  induction transcripts as [|t ts IH] using rev_ind; [done|].
  rewrite foldl_app. simpl foldl. rewrite get_scores_transcript, IH.
  rewrite omap_app. simpl. destruct (t !! scale) as [s|]; simpl.
  - destruct (omap _ ts); simpl; [done|]. done.
  - rewrite app_nil_r. done.
Qed.

(** ** Strings *)

Lemma chars_app s1 s2 : chars (s1 +:+ s2) = chars s1 ++ chars s2.
Proof.
  induction s1 as [|c s1 IH]; [done|].
  change (String c s1 +:+ s2) with (String c (s1 +:+ s2)). simpl. by rewrite IH.
Qed.

Lemma chars_rev_app s1 s2 : chars (String.rev_app s1 s2) = rev (chars s1) ++ chars s2.
Proof.
  revert s2. induction s1 as [|c s1 IH]; intros s2; simpl; [done|].
  rewrite IH. simpl. by rewrite <- app_assoc.
Qed.

Lemma chars_rev s : chars (String.rev s) = rev (chars s).
Proof. unfold String.rev. rewrite chars_rev_app. simpl. by rewrite app_nil_r. Qed.

Lemma string_app_cons c s1 s2 : String c s1 +:+ s2 = String c (s1 +:+ s2).
Proof. done. Qed.

Lemma string_app_nil_r s : s +:+ "" = s.
Proof. induction s as [|c s IH]; [done|]. by rewrite string_app_cons, IH. Qed.

Lemma rev_app_rev_app s acc1 acc2 :
  String.rev_app (String.rev_app s acc1) acc2 = String.rev_app acc1 (s +:+ acc2).
Proof.
  revert acc1 acc2. induction s as [|c s IH]; intros acc1 acc2; [done|].
  rewrite string_app_cons. simpl. by rewrite IH.
Qed.

Lemma string_rev_involutive s : String.rev (String.rev s) = s.
Proof. unfold String.rev. rewrite rev_app_rev_app. simpl. apply string_app_nil_r. Qed.

Lemma rev_not_empty s : s ≠ "" → String.rev s ≠ "".
Proof.
  intros Hs Hr. apply Hs. rewrite <- (string_rev_involutive s), Hr. done.
Qed.

Lemma chars_string_filter f s :
  chars (string_filter f s) = filter (λ c, f c = true) (chars s).
Proof.
  induction s as [|c s IH]; simpl; [done|].
  rewrite filter_cons. destruct (decide (f c = true)) as [Hc|Hc].
  - rewrite Hc. simpl. by rewrite IH.
  - apply not_true_is_false in Hc. by rewrite Hc.
Qed.

Lemma chars_string_map f s : chars (string_map f s) = f <$> chars s.
Proof. induction s as [|c s IH]; simpl; [done|]. by rewrite IH. Qed.

Lemma string_filter_id f s :
  Forall (λ c, f c = true) (chars s) → string_filter f s = s.
Proof.
  induction s as [|c s IH]; simpl; [done|]. intros [Hc Hs]%Forall_cons.
  by rewrite Hc, IH.
Qed.

Lemma string_map_id f s :
  Forall (λ c, f c = c) (chars s) → string_map f s = s.
Proof.
  induction s as [|c s IH]; simpl; [done|]. intros [Hc Hs]%Forall_cons.
  by rewrite Hc, IH.
Qed.

Lemma string_map_app f s1 s2 :
  string_map f (s1 +:+ s2) = string_map f s1 +:+ string_map f s2.
Proof.
  induction s1 as [|c s1 IH]; [done|]. rewrite !string_app_cons. simpl.
  by rewrite string_app_cons, IH.
Qed.

Lemma join_cons sep w w' ws :
  join sep (w :: w' :: ws) = w +:+ sep +:+ join sep (w' :: ws).
Proof. done. Qed.

Lemma string_map_join f sep ws :
  string_map f (join sep ws) = join (string_map f sep) (string_map f <$> ws).
Proof.
  induction ws as [|w [|w' ws] IH]; [done..|].
  rewrite join_cons, !string_map_app, IH. done.
Qed.

Lemma chars_join (P : Ascii.ascii → Prop) sep ws :
  Forall P (chars sep) → Forall (λ w, Forall P (chars w)) ws →
  Forall P (chars (join sep ws)).
Proof.
  intros Hsep Hws. induction Hws as [|w ws Hw Hws IH]; [constructor|].
  destruct ws as [|w' ws]; [done|].
  rewrite join_cons, !chars_app, !Forall_app. done.
Qed.

(** ** Splitting at whitespace *)

Lemma words_go_Forall (Q : Ascii.ascii → Prop) cur s :
  match cur with
  | Some acc => acc ≠ "" ∧ Forall Q (chars acc)
  | None => True
  end →
  Forall (λ c, Ascii.is_space c = false → Q c) (chars s) →
  Forall (λ w, w ≠ "" ∧ Forall Q (chars w)) (String.words_go cur s).
Proof.
  revert cur. induction s as [|c s IH]; intros cur Hcur Hs; simpl.
  - destruct cur as [acc|]; simpl; [|constructor].
    destruct Hcur as [Hne Hacc]. constructor; [|constructor].
    split; [by apply rev_not_empty|]. rewrite chars_rev. by apply Forall_rev.
  - apply Forall_cons in Hs as [Hc Hs]. destruct (Ascii.is_space c) eqn:Ec.
    + apply Forall_app. split; [|by apply IH].
      destruct cur as [acc|]; simpl; [|constructor].
      destruct Hcur as [Hne Hacc]. constructor; [|constructor].
      split; [by apply rev_not_empty|]. rewrite chars_rev. by apply Forall_rev.
    + apply IH; [|done]. destruct cur as [acc|]; simpl.
      * destruct Hcur as [Hne Hacc]. split; [done|]. constructor; auto.
      * split; [done|]. constructor; [auto | constructor].
Qed.

Lemma split_Forall (Q : Ascii.ascii → Prop) s :
  Forall (λ c, Ascii.is_space c = false → Q c) (chars s) →
  Forall (λ w, w ≠ "" ∧ Forall Q (chars w)) (split s).
Proof. intros Hs. by apply words_go_Forall. Qed.

Lemma words_go_word w cur rest :
  Forall (λ c, Ascii.is_space c = false) (chars w) →
  String.words_go cur (w +:+ rest) = String.words_go (push_word w cur) rest.
Proof.
  revert cur. induction w as [|c w IH]; intros cur Hw; simpl; [done|].
  apply Forall_cons in Hw as [Hc Hw]. rewrite Hc. by apply IH.
Qed.

Lemma push_word_Some w acc : push_word w (Some acc) = Some (String.rev_app w acc).
Proof. revert acc. induction w as [|c w IH]; intros acc; simpl; [done|]. by rewrite IH. Qed.

Lemma push_word_None w : w ≠ "" → push_word w None = Some (String.rev w).
Proof. destruct w as [|c w]; [done|]. intros _. simpl. by rewrite push_word_Some. Qed.

Lemma split_join ws :
  Forall (λ w, w ≠ "" ∧ Forall (λ c, Ascii.is_space c = false) (chars w)) ws →
  split (join " " ws) = ws.
Proof.
  unfold split, String.words.
  induction 1 as [|w ws [Hne Hw] Hws IH]; [done|].
  destruct ws as [|w' ws].
  - simpl join. rewrite <- (string_app_nil_r w) at 1.
    rewrite words_go_word by done.
    rewrite push_word_None by done. simpl.
    by rewrite string_rev_involutive.
  - rewrite join_cons, words_go_word by done.
    rewrite push_word_None by done.
    change (" " +:+ ?s) with (String " " s).
    change (String.words_go (Some ?acc) (String " " ?s))
      with (option_list (String.rev <$> Some acc) ++ String.words_go None s).
    simpl option_list. rewrite string_rev_involutive, IH. done.
Qed.

(** ** Cleaning an utterance *)

Lemma lower_clean_char c :
  Ascii.is_space c = false → is_punctuation c = false → is_digit c = false →
  clean_char (lower c).
Proof.
  destruct c as [[] [] [] [] [] [] [] []]; vm_compute; intros; try discriminate;
    repeat split.
Qed.

Lemma clean_char_not_upper c : clean_char c → lower c = c.
Proof. intros (_ & _ & _ & Hu). unfold lower. by rewrite Hu. Qed.

Lemma not_punctuation_not_bracket c :
  is_punctuation c = false → Ascii.eqb c "[" = false ∧ Ascii.eqb c "_" = false.
Proof.
  destruct c as [[] [] [] [] [] [] [] []]; vm_compute; intros; try discriminate;
    by split.
Qed.

Lemma string_map_not_empty f s : s ≠ "" → string_map f s ≠ "".
Proof. by destruct s. Qed.

(** The shape of a cleaned utterance: clean words, one blank between two. *)
Lemma clean_utterance_words utt :
  ∃ ws, clean_utterance utt = join " " ws ∧ Forall clean_word ws.
Proof.
  unfold clean_utterance. cbv zeta.
  set (s1 := unwrap_laughter _).
  set (s3 := string_filter _ (string_filter _ s1)).
  assert (Forall (λ c, is_punctuation c = false ∧ is_digit c = false) (chars s3))
    as Hs3.
  { unfold s3. rewrite !chars_string_filter. apply Forall_forall.
    intros c [Hd [Hp _]%list_elem_of_filter]%list_elem_of_filter.
    split; by apply negb_true_iff. }
  exists (string_map lower <$> split s3). split.
  - by rewrite string_map_join.
  - apply Forall_fmap.
    eapply Forall_impl;
      [apply (split_Forall
                (λ c, Ascii.is_space c = false ∧ is_punctuation c = false
                      ∧ is_digit c = false) s3)|].
    + eapply Forall_impl; [exact Hs3|]. simpl. intros c [? ?] ?. done.
    + simpl. intros w [Hne Hw]. split; [by apply string_map_not_empty|].
      rewrite chars_string_map. apply Forall_fmap.
      eapply Forall_impl; [exact Hw|]. simpl. intros c (? & ? & ?).
      by apply lower_clean_char.
Qed.

Lemma clean_word_no_space w :
  clean_word w → w ≠ "" ∧ Forall (λ c, Ascii.is_space c = false) (chars w).
Proof.
  intros [Hne Hw]. split; [done|]. eapply Forall_impl; [exact Hw|].
  by intros c (? & _).
Qed.

Lemma clean_words_split ws : Forall clean_word ws → split (join " " ws) = ws.
Proof.
  intros Hws. apply split_join. eapply Forall_impl; [exact Hws|].
  apply clean_word_no_space.
Qed.

(** X14.  The shape of what [clean_utterance] returns: words separated by
    single blanks, with no blank before the first or after the last, which
    are exactly the words that [split] finds in it; no word is empty, and no
    character of a word is whitespace, punctuation, a digit or an upper-case
    letter. *)
Theorem clean_utterance_normal_form (utt : string) :
  ∃ ws, clean_utterance utt = join " " ws ∧
        split (clean_utterance utt) = ws ∧
        Forall clean_word ws.
Proof.
  destruct (clean_utterance_words utt) as (ws & E & Hws).
  exists ws. rewrite E. split; [done|]. split; [by apply clean_words_split | done].
Qed.

Lemma prefix_head_differs a t c s :
  Ascii.eqb c a = false → String.prefix (String a t) (String c s) = false.
Proof.
  intros Hc. cbn [String.prefix]. destruct (ascii_dec a c) as [<-|_]; [|done].
  by rewrite Ascii.eqb_refl in Hc.
Qed.

Lemma re_sub_literal_no_bracket tag s :
  Forall (λ c, Ascii.eqb c "[" = false) (chars s) →
  re_sub_literal (String "[" tag) s = s.
Proof.
  unfold re_sub_literal. induction s as [|c s IH]; [done|].
  intros [Hc Hs]%Forall_cons. cbn [re_sub_literal_go].
  rewrite prefix_head_differs by done. by rewrite IH.
Qed.

Lemma unwrap_laughter_no_bracket s :
  Forall (λ c, Ascii.eqb c "[" = false) (chars s) → unwrap_laughter s = s.
Proof.
  unfold unwrap_laughter. induction s as [|c s IH]; [done|].
  intros [Hc Hs]%Forall_cons. cbn [unwrap_laughter_go].
  rewrite prefix_head_differs by done. cbn [andb]. by rewrite IH.
Qed.

Lemma clean_chars_join ws :
  Forall clean_word ws →
  Forall (λ c, is_punctuation c = false ∧ is_digit c = false
               ∧ is_upper c = false) (chars (join " " ws)).
Proof.
  intros Hws. apply chars_join.
  - by repeat constructor.
  - eapply Forall_impl; [exact Hws|]. simpl. intros w [_ Hw].
    eapply Forall_impl; [exact Hw|]. by intros c (_ & ? & ? & ?).
Qed.

Lemma clean_utterance_fixed ws :
  Forall clean_word ws → clean_utterance (join " " ws) = join " " ws.
Proof.
  intros Hws. pose proof (clean_chars_join ws Hws) as Hc.
  set (y := join " " ws) in *. unfold clean_utterance. cbv zeta.
  assert (Forall (λ c, Ascii.eqb c "[" = false) (chars y)) as Hb.
  { eapply Forall_impl; [exact Hc|]. intros c (Hp & _).
    by apply not_punctuation_not_bracket. }
  assert (foldl (λ utt tag, re_sub_literal tag utt) y REMOVE_TAGS = y) as ->.
  { unfold REMOVE_TAGS. cbn [foldl].
    by rewrite !(re_sub_literal_no_bracket _ y Hb). }
  rewrite unwrap_laughter_no_bracket by done.
  rewrite (string_filter_id _ y).
  2:{ eapply Forall_impl; [exact Hc|]. intros c (Hp & _). by rewrite Hp. }
  rewrite (string_filter_id _ y).
  2:{ eapply Forall_impl; [exact Hc|]. intros c (_ & Hd & _). by rewrite Hd. }
  unfold y at 1. rewrite clean_words_split by done. fold y.
  apply string_map_id. eapply Forall_impl; [exact Hc|].
  intros c (_ & _ & Hu). unfold lower. by rewrite Hu.
Qed.

(** X15.  [clean_utterance] is idempotent: cleaning a cleaned utterance
    changes nothing. *)
Theorem clean_utterance_idempotent (utt : string) :
  clean_utterance (clean_utterance utt) = clean_utterance utt.
Proof.
  destruct (clean_utterance_words utt) as (ws & -> & Hws).
  by apply clean_utterance_fixed.
Qed.

(** ** From the transcripts to the trained model *)

Lemma elem_of_get_utterances transcripts utt :
  utt ∈ get_utterances transcripts →
  utt ≠ "" ∧ ∃ ws, utt = join " " ws ∧ Forall clean_word ws.
Proof.
  unfold get_utterances. intros (lines & Hin & _)%list_elem_of_bind.
  unfold get_transcript_utterances in Hin.
  apply list_elem_of_omap in Hin as (line & _ & Hl). cbv zeta in Hl.
  destruct (decide _) as [|Hne] in Hl; [done|]. injection Hl as <-.
  split; [done|]. apply clean_utterance_words.
Qed.

Lemma oov_token_not_clean : ¬ clean_word OOV_TOKEN.
Proof.
  intros [_ Hw]. unfold OOV_TOKEN in Hw. cbn [chars] in Hw.
  apply Forall_cons in Hw as [(_ & Hp & _) _]. vm_compute in Hp. done.
Qed.

Lemma clean_words_no_oov ws :
  Forall clean_word ws → OOV_TOKEN ∉ split (join " " ws).
Proof.
  intros Hws. rewrite clean_words_split by done. intros Hin.
  rewrite Forall_forall in Hws. by apply oov_token_not_clean, Hws.
Qed.

(** X16.  What [add_perplexities] trains on.  Every utterance that
    [get_utterances] gathers is non-empty and already clean, and the default
    out-of-vocabulary token is a word of none of them (its underscores are
    punctuation); so training the default model [BackoffLM()] on them runs
    to its end, whatever the transcripts hold, and leaves the model
    normalized with the out-of-vocabulary token in its vocabulary. *)
Theorem switchboard_training_completes (transcripts : list (list string)) :
  Forall (λ utt, utt ≠ "" ∧ clean_utterance utt = utt ∧ OOV_TOKEN ∉ split utt)
         (get_utterances transcripts) ∧
  ∃ m, train (get_utterances transcripts) (BackoffLM_init OOV_TOKEN 2 3)
         = (Return (), m) ∧
       is_normalized m = true ∧
       is_Some (vocab m !! Some OOV_TOKEN).
Proof.
  assert (Forall (λ utt, utt ≠ "" ∧ clean_utterance utt = utt
                         ∧ OOV_TOKEN ∉ split utt)
                 (get_utterances transcripts)) as Hutts.
  { apply Forall_forall.
    intros utt (Hne & ws & -> & Hws)%elem_of_get_utterances.
    split; [done|]. split; [by apply clean_utterance_fixed|].
    by apply clean_words_no_oov. }
  split; [done|]. set (utts := get_utterances transcripts) in *.
  assert (∀ utt, utt ∈ utts → OOV_TOKEN ∉ split utt) as Hfresh.
  { intros utt Hin. rewrite Forall_forall in Hutts. by apply Hutts. }
  destruct (train_vocab_folding_fresh OOV_TOKEN 2 3 utts Hfresh)
    as (m1 & E1 & Ho & _).
  rewrite train_vocab_closed in E1. injection E1 as <-. simpl in Ho.
  rewrite train_fresh_unfold.
  assert (size (vocab (after_counting OOV_TOKEN 2 3 utts)) ≠ 0) as HV.
  { simpl. intros H0%map_size_empty_inv. by rewrite H0, lookup_empty in Ho. }
  rewrite normalize_smoothed; [|done|apply after_counting_nonneg].
  eexists. split; [done|]. simpl. split; [done|]. eauto.
Qed.

(** X17.  A transcript whose lines all have at most three fields (the
    utterance identifier and the two time stamps, with no word after them)
    yields no utterance. *)
Theorem get_transcript_utterances_no_words (lines : list string) :
  Forall (λ line, length (split line) ≤ 3) lines →
  get_transcript_utterances lines = [].
Proof.
  unfold get_transcript_utterances. induction 1 as [|line lines Hl _ IH]; [done|].
  cbn [omap list_omap]. cbv zeta. rewrite drop_ge by done.
  change (clean_utterance (join " " [])) with "". by rewrite decide_True.
Qed.

Lemma get_transcript_utterances_no_words_witness :
  get_transcript_utterances ["sw2001A-ms98-a-0001 0.000000 0.977625"; ""] = [].
Proof.
  apply get_transcript_utterances_no_words.
  repeat constructor.
Defined.
